(** * jira-to-github: extraction, label handling and migration

    A shallow embedding of [jira-to-github.py] (class [JiraToGithub]) and the
    properties of its extract / migrate pipeline.

    Conventions of the embedding.
    - A Python [str] is the list of its code points ([list N]); [py "..."]
      writes an ASCII literal.
    - A [dict] is a [gmap]; a [defaultdict(int)] is a [gmap] read with the
      default [0].  A dict whose keys may be absent (an issue) is a record
      with optional fields.
    - An uncaught Python exception (KeyError, TypeError, IndexError, ...) is
      the result [None] of a function into [option].
    - The remote service and the cache file are explicit state; every HTTP
      request, cache write and progress-bar update is appended to a log. *)

From Stdlib Require Import ZArith NArith Lia Ascii String.
From stdpp Require Import base option list gmap strings.

Open Scope N_scope.

(* ===================================================================== *)
(** * Text *)
(* ===================================================================== *)

Abbreviation str := (list N).

(** An ASCII literal as a Python string. *)
Definition py (s : string) : str :=
  (fun a => N_of_ascii a) <$> list_ascii_of_string s.
Arguments py s%_string : simpl never.

Definition space : N := 32.
Definition newline : N := 10.
Definition ampersand : N := 38.
Definition semicolon : N := 59.
Definition dash : N := 45.
Definition dot : N := 46.
(** The one-character string made of a double quote. *)
Definition dquote : str := [34].

(** [s.startswith(p)] *)
Fixpoint starts_with (p s : str) : bool :=
  match p, s with
  | [], _ => true
  | _ :: _, [] => false
  | a :: p', b :: s' => (a =? b) && starts_with p' s'
  end.

(** [s.replace(old, new)] for a non-empty [old]: the occurrences of [old] are
    found from left to right and do not overlap.  [skip] counts the characters
    of the current occurrence that are still to be passed over. *)
Fixpoint replace_from (old new : str) (skip : nat) (s : str) : str :=
  match s with
  | [] => []
  | c :: s' =>
      match skip with
      | S k => replace_from old new k s'
      | O =>
          if starts_with old s
          then new ++ replace_from old new (Nat.pred (length old)) s'
          else c :: replace_from old new 0 s'
      end
  end.

Definition str_replace (old new s : str) : str := replace_from old new 0 s.

(** [s.split(sep)[0]] for a one-character separator: the part of [s] before
    the first [sep], all of [s] when there is none. *)
Fixpoint split_head (sep : N) (s : str) : str :=
  match s with
  | [] => []
  | c :: s' => if c =? sep then [] else c :: split_head sep s'
  end.

(** The class [\d] on ASCII text: the decimal digits 0-9.  (On other text
    Python also counts the decimal digits of other scripts; the texts
    considered here are ASCII.) *)
Definition is_digit (c : N) : bool := (48 <=? c) && (c <=? 57).

(* ===================================================================== *)
(** * Regular expressions of [_add_to_projects] *)
(* ===================================================================== *)

Module Regex.

(** The constructs that occur in ['^(\d+.){3}\d+$']. *)
Inductive regex :=
| Bol                          (* ^ *)
| Eol                          (* $ *)
| Digit                        (* \d *)
| AnyChar                      (* .  (unescaped) *)
| Seq (a b : regex)            (* ab *)
| Plus (a : regex)             (* a+ *)
| Times (n : nat) (a : regex). (* a{n} *)

(** Backtracking matcher in continuation-passing style.  [bos] tells
    whether the position is the beginning of the string; [k] is what is
    left to match.  [.] does not match a newline; [$] matches at the end
    and before a newline that ends the string.  An iteration of [a+] that
    consumes nothing ends the repetition. *)
Fixpoint accept (r : regex) (bos : bool) (s : str)
         (k : bool -> str -> bool) : bool :=
  match r with
  | Bol => bos && k bos s
  | Eol =>
      match s with
      | [] => k bos s
      | [c] => (c =? newline) && k bos s
      | _ => false
      end
  | Digit =>
      match s with
      | c :: s' => is_digit c && k false s'
      | [] => false
      end
  | AnyChar =>
      match s with
      | c :: s' => negb (c =? newline) && k false s'
      | [] => false
      end
  | Seq a b => accept a bos s (fun bos' s' => accept b bos' s' k)
  | Plus a =>
      (fix loop (fuel : nat) (bos : bool) (s : str) : bool :=
         match fuel with
         | O => false
         | S fuel' =>
             accept a bos s (fun bos' s' =>
               (if (length s' <? length s)%nat
                then loop fuel' bos' s' else false)
               || k bos' s')
         end) (S (length s)) bos s
  | Times n a =>
      (fix rep (n : nat) (bos : bool) (s : str) : bool :=
         match n with
         | O => k bos s
         | S n' => accept a bos s (fun bos' s' => rep n' bos' s')
         end) n bos s
  end.

(** The repetition of [a+], as [accept] runs it. *)
Definition plus_loop (a : regex) (k : bool -> str -> bool)
  : nat -> bool -> str -> bool :=
  fix loop (fuel : nat) (bos : bool) (s : str) : bool :=
    match fuel with
    | O => false
    | S fuel' =>
        accept a bos s (fun bos' s' =>
          (if (length s' <? length s)%nat
           then loop fuel' bos' s' else false)
          || k bos' s')
    end.

(** [re.match(r, s) is not None]: the pattern matches at the start of [s]
    (it need not reach the end unless the pattern says so). *)
Definition re_match (r : regex) (s : str) : bool :=
  accept r true s (fun _ _ => true).

(** ['^(\d+.){3}\d+$'] *)
Definition version_re : regex :=
  Seq Bol (Seq (Times 3 (Seq (Plus Digit) AnyChar)) (Seq (Plus Digit) Eol)).

End Regex.

(** The test of line 140: [re.match('^(\d+.){3}\d+$', version.text) is not None]. *)
Definition is_version_label (v : str) : bool :=
  Regex.re_match Regex.version_re v.

(** The version pattern as the specification words it: four runs of digits
    separated by literal dots. *)
Definition digits (d : str) : Prop :=
  d <> [] /\ Forall (fun c => is_digit c = true) d.

Definition strict_version (v : str) : Prop :=
  exists d1 d2 d3 d4,
    digits d1 /\ digits d2 /\ digits d3 /\ digits d4 /\
    v = d1 ++ dot :: d2 ++ dot :: d3 ++ dot :: d4.

(* ===================================================================== *)
(** * HTML entity decoding *)
(* ===================================================================== *)

Section Entities.

(** [html.entities.name2codepoint] of the Python standard library, as the
    list of its items in the order of the dict.  Its keys are entity names
    made of letters and digits, so each of them stands for itself in the
    pattern built from them. *)
Variable name2codepoint : list (str * N).

(** [name2codepoint[n]] *)
Fixpoint dict_get (d : list (str * N)) (n : str) : option N :=
  match d with
  | [] => None
  | (n', cp) :: d' => if bool_decide (n' = n) then Some cp else dict_get d' n
  end.

(** The group [(n1|n2|...)] followed by [;]: the alternatives are tried in
    order, and one is kept when the [;] follows it.  The result is the
    text of group 1. *)
Fixpoint match_names (d : list (str * N)) (s : str) : option str :=
  match d with
  | [] => None
  | (n, _) :: d' =>
      if starts_with (n ++ [semicolon]) s then Some n else match_names d' s
  end.

(** A match of ['&(%s);' % '|'.join(name2codepoint)] at the head of [s]. *)
Definition entity_at (s : str) : option str :=
  match s with
  | c :: s' => if c =? ampersand then match_names name2codepoint s' else None
  | [] => None
  end.

(** [lambda m: chr(name2codepoint[m.group(1)])].  Group 1 is a key of the
    dict, so the lookup succeeds. *)
Definition entity_char (n : str) : str :=
  match dict_get name2codepoint n with
  | Some cp => [cp]
  | None => []
  end.

(** [re.sub(pattern, repl, s)]: scan from the left; at a match emit the
    replacement and go on after the match ([&], the name and [;]),
    otherwise emit the character. *)
Fixpoint sub_from (skip : nat) (s : str) : str :=
  match s with
  | [] => []
  | c :: s' =>
      match skip with
      | S k => sub_from k s'
      | O =>
          match entity_at s with
          | Some n => entity_char n ++ sub_from (S (length n)) s'
          | None => c :: sub_from 0 s'
          end
      end
  end.

Definition re_sub_entities (s : str) : str := sub_from 0 s.

(** [htmlentitydecode(self, s)] *)
Definition htmlentitydecode (s : option str) : str :=
  match s with
  | None => []
  | Some s =>
      let s := str_replace (replicate 8 space) [] s in
      re_sub_entities s
  end.

(** ** The decoding as the specification words it *)

(** [n] is a recognized entity name with character [cp]. *)
Definition recognized (n : str) (cp : N) : Prop :=
  dict_get name2codepoint n = Some cp.

(** [s] begins with a recognized entity. *)
Definition entity_prefix (s : str) : Prop :=
  exists n cp rest, recognized n cp /\ s = ampersand :: n ++ semicolon :: rest.

(** Every sequence of 8 consecutive spaces is collapsed to nothing. *)
Inductive collapsed : str -> str -> Prop :=
| collapsed_end : collapsed [] []
| collapsed_spaces s out :
    collapsed s out -> collapsed (replicate 8 space ++ s) out
| collapsed_other c s out :
    (forall rest, c :: s <> replicate 8 space ++ rest) ->
    collapsed s out -> collapsed (c :: s) (c :: out).

(** Every recognized entity is replaced by its character, everything else
    is left as it is. *)
Inductive entities_replaced : str -> str -> Prop :=
| replaced_end : entities_replaced [] []
| replaced_entity n cp rest out :
    recognized n cp ->
    entities_replaced rest out ->
    entities_replaced (ampersand :: n ++ semicolon :: rest) (cp :: out)
| replaced_other c s out :
    ~ entity_prefix (c :: s) ->
    entities_replaced s out -> entities_replaced (c :: s) (c :: out).

(** No entity name contains the [;] that ends an entity. *)
Definition names_plain : bool :=
  forallb (fun e : str * N => negb (existsb (N.eqb semicolon) e.1))
          name2codepoint.

(** Specification of the decoding function. *)
Inductive decoded_spec : option str -> str -> Prop :=
| decoded_null : decoded_spec None []
| decoded_text s mid out :
    collapsed s mid -> entities_replaced mid out ->
    decoded_spec (Some s) out.

End Entities.


(* ===================================================================== *)
(** * The project model *)
(* ===================================================================== *)

(** An issue: the dict built by [_add_to_projects].  The keys ['comments'],
    ['milestone_name'] and ['milestone'] come and go, so they are optional
    fields.  The value of ['milestone'] is an [int] or [None]. *)
Record Issue := mkIssue {
  title : str;
  type : str;
  key : str;
  body : str;
  labels : list str;
  comments : option (list str);
  milestone_name : option str;
  milestone : option (option Z)
}.

Definition set_labels (l : list str) (i : Issue) : Issue :=
  mkIssue (title i) (type i) (key i) (body i) l
          (comments i) (milestone_name i) (milestone i).
Definition set_comments (c : option (list str)) (i : Issue) : Issue :=
  mkIssue (title i) (type i) (key i) (body i) (labels i)
          c (milestone_name i) (milestone i).
Definition set_milestone_name (m : option str) (i : Issue) : Issue :=
  mkIssue (title i) (type i) (key i) (body i) (labels i)
          (comments i) m (milestone i).
Definition set_milestone (m : option (option Z)) (i : Issue) : Issue :=
  mkIssue (title i) (type i) (key i) (body i) (labels i)
          (comments i) (milestone_name i) m.

(** One entry of [self.projects].  ['Milestones'] maps a name to its count
    and, once the milestone resolver has run, to [None] when the name is
    unresolved. *)
Record Project := mkProject {
  Milestones : gmap str (option Z);
  Components : gmap str Z;
  Labels : gmap str Z;
  Issues : list Issue
}.

Definition empty_project : Project := mkProject ∅ ∅ ∅ [].

(** [d[k] += 1] on a [defaultdict(int)] of counts. *)
Definition incr (k : str) (d : gmap str Z) : gmap str Z :=
  <[k := (default 0 (d !! k) + 1)%Z]> d.

(** [d[k] += 1] on ['Milestones']: adding 1 to [None] is a TypeError. *)
Definition incr_milestone (k : str) (d : gmap str (option Z))
  : option (gmap str (option Z)) :=
  match default (Some 0%Z) (d !! k) with
  | Some n => Some (<[k := Some (n + 1)%Z]> d)
  | None => None
  end.

(** [l[-1] = f(l[-1])]: an IndexError on the empty list; [f] may fail too. *)
Definition on_last (f : Issue -> option Issue) (l : list Issue)
  : option (list Issue) :=
  i ← last l;
  i' ← f i;
  Some (<[Nat.pred (length l) := i']> l).

(** A [for] loop whose body may raise. *)
Fixpoint for_each {A S : Type} (f : A -> S -> option S) (l : list A) (s : S)
  : option S :=
  match l with
  | [] => Some s
  | x :: l' => s' ← f x s; for_each f l' s'
  end.

(* ===================================================================== *)
(** * The XML items *)
(* ===================================================================== *)

Module Comment.
(** A [comment] element: its [author] and [created] attributes and its
    text ([None] for an empty element). *)
Record t := mk { author : str; created : str; text : option str }.
End Comment.

Module Item.
(** An [item] element of the channel.  [title], [type], [key], [status],
    [reporter] (its [username] attribute), [created] and [description] are
    read without protection; the other children are optional.
    - [project]: [None] when there is no [project] child, [Some None] when
      the child has no [key] attribute ([get] then returns [None]);
    - [description]: the text of the element, [None] when it is empty;
    - [version], [labels], [comments]: the repeated elements, empty when
      the parent or the elements are missing. *)
Record t := mk {
  project : option (option str);
  title : str;
  type : str;
  key : str;
  status : str;
  reporter : str;
  created : str;
  resolved : option str;
  description : option str;
  fixVersion : option str;
  component : option str;
  version : list str;
  priority : option str;
  labels : list str;
  comments : list Comment.t
}.
End Item.

(* ===================================================================== *)
(** * The issue extractor *)
(* ===================================================================== *)

Section Extractor.

Variable name2codepoint : list (str * N).
Variable jira_project : str.

(** [self.projects[self.jira_project] = f(...)]; a KeyError when the
    entry is missing. *)
Definition on_project (f : Project -> option Project)
           (projects : gmap str Project) : option (gmap str Project) :=
  p ← projects !! jira_project;
  p' ← f p;
  Some (<[jira_project := p']> projects).

(** Lines 97-100: the project key of the item. *)
Definition item_project (item : Item.t) : option str :=
  match Item.project item with
  | Some k => k
  | None => Some (split_head dash (Item.key item))
  end.

(** [proj in self.projects] *)
Definition in_projects (proj : option str) (projects : gmap str Project)
  : bool :=
  match proj with
  | Some k => bool_decide (is_Some (projects !! k))
  | None => false
  end.

(** Lines 115-124: the issue appended for the item. *)
Definition new_issue (item : Item.t) : Issue :=
  let resolved_at :=
    match Item.resolved item with
    | Some r => py ", resolved=" ++ dquote ++ r ++ dquote
    | None => []
    end in
  {| title := Item.title item;
     type := Item.type item;
     key := Item.key item;
     body := py "<b><i>[reporter=" ++ dquote ++ Item.reporter item ++ dquote
             ++ py ", created=" ++ dquote ++ Item.created item ++ dquote
             ++ resolved_at ++ py "]</i></b>" ++ [newline]
             ++ htmlentitydecode name2codepoint (Item.description item);
     labels := [Item.status item; Item.type item];
     comments := Some [];
     milestone_name := None;
     milestone := None |}.

(** [Issues[-1]['labels'].append(x)] *)
Definition append_label (x : str) (p : Project) : option Project :=
  l ← on_last (fun i => Some (set_labels (labels i ++ [x]) i)) (Issues p);
  Some (mkProject (Milestones p) (Components p) (Labels p) l).

(** Lines 126-128 *)
Definition add_fixVersion (v : str) (p : Project) : option Project :=
  m ← incr_milestone v (Milestones p);
  l ← on_last (fun i => Some (set_milestone_name (Some v) i)) (Issues p);
  Some (mkProject m (Components p) (Labels p) l).

(** Lines 133-134 *)
Definition add_component (c : str) (p : Project) : option Project :=
  append_label c (mkProject (Milestones p) (incr c (Components p))
                            (Labels p) (Issues p)).

(** Lines 141-142, 147-148 and 154-155: count a label and give it to the
    last issue. *)
Definition add_label (x : str) (p : Project) : option Project :=
  append_label x (mkProject (Milestones p) (Components p)
                            (incr x (Labels p)) (Issues p)).

(** Lines 140-142: the body of the loop over the [version] elements. *)
Definition add_version (v : str) (p : Project) : option Project :=
  if is_version_label v then add_label v p else Some p.

(** Lines 161-166: the body of the loop over the comments; a KeyError
    when the last issue has no ['comments']. *)
Definition add_comment (c : Comment.t) (p : Project) : option Project :=
  let text :=
    py "<b><i>[author=" ++ dquote ++ Comment.author c ++ dquote
    ++ py ", created=" ++ dquote ++ Comment.created c ++ dquote
    ++ py "]</i></b>" ++ [newline]
    ++ htmlentitydecode name2codepoint (Comment.text c) in
  l ← on_last (fun i => cs ← comments i;
                        Some (set_comments (Some (cs ++ [text])) i))
              (Issues p);
  Some (mkProject (Milestones p) (Components p) (Labels p) l).

(** A [try: ... except AttributeError: pass] block around the use of an
    optional child: nothing happens when the child is missing. *)
Definition when_present {A S : Type} (x : option A) (f : A -> S -> option S)
           (s : S) : option S :=
  match x with
  | Some a => f a s
  | None => Some s
  end.

(** [_add_to_projects(self, item)] *)
Definition _add_to_projects (item : Item.t) (projects : gmap str Project)
  : option (gmap str Project) :=
  let proj := item_project item in
  let projects :=
    if in_projects proj projects then projects
    else <[jira_project := empty_project]> projects in
  projects ← on_project
    (fun p => Some (mkProject (Milestones p) (Components p) (Labels p)
                              (Issues p ++ [new_issue item]))) projects;
  projects ← when_present (Item.fixVersion item)
    (fun v => on_project (add_fixVersion v)) projects;
  projects ← when_present (Item.component item)
    (fun c => on_project (add_component c)) projects;
  projects ← for_each (fun v => on_project (add_version v))
    (Item.version item) projects;
  projects ← when_present (Item.priority item)
    (fun x => on_project (add_label x)) projects;
  projects ← for_each (fun x => on_project (add_label x))
    (Item.labels item) projects;
  for_each (fun c => on_project (add_comment c))
    (Item.comments item) projects.

(** ** What an item adds, in closed form *)

(** Lines 115-168 on the entry of the project, once the entry is chosen. *)
Definition add_item (item : Item.t) (p : Project) : option Project :=
  p ← Some (mkProject (Milestones p) (Components p) (Labels p)
                      (Issues p ++ [new_issue item]));
  p ← when_present (Item.fixVersion item) add_fixVersion p;
  p ← when_present (Item.component item) add_component p;
  p ← for_each add_version (Item.version item) p;
  p ← when_present (Item.priority item) add_label p;
  p ← for_each add_label (Item.labels item) p;
  for_each add_comment (Item.comments item) p.

(** The versions of the item that become labels. *)
Definition version_labels (item : Item.t) : list str :=
  filter (fun v => is_version_label v = true) (Item.version item).

(** The labels counted in ['Labels'] for the item. *)
Definition counted_labels (item : Item.t) : list str :=
  version_labels item ++ option_list (Item.priority item) ++ Item.labels item.

Definition comment_text (c : Comment.t) : str :=
  py "<b><i>[author=" ++ dquote ++ Comment.author c ++ dquote
  ++ py ", created=" ++ dquote ++ Comment.created c ++ dquote
  ++ py "]</i></b>" ++ [newline]
  ++ htmlentitydecode name2codepoint (Comment.text c).

(** The issue of the item when [_add_to_projects] returns. *)
Definition extracted_issue (item : Item.t) : Issue :=
  {| title := Item.title item;
     type := Item.type item;
     key := Item.key item;
     body := body (new_issue item);
     labels := [Item.status item; Item.type item]
               ++ option_list (Item.component item) ++ counted_labels item;
     comments := Some (comment_text <$> Item.comments item);
     milestone_name := Item.fixVersion item;
     milestone := None |}.

(** The entry of the project when [_add_to_projects] returns. *)
Definition extracted_project (item : Item.t) (p : Project) : Project :=
  {| Milestones :=
       match Item.fixVersion item with
       | Some v =>
           <[v := Some (default 0%Z (Milestones p !! v ≫= id) + 1)%Z]>
             (Milestones p)
       | None => Milestones p
       end;
     Components :=
       match Item.component item with
       | Some c => incr c (Components p)
       | None => Components p
       end;
     Labels := foldl (fun d x => incr x d) (Labels p) (counted_labels item);
     Issues := Issues p ++ [extracted_issue item] |}.

(** The state of [self.projects] during the extraction: the configured
    key is the only key, and the milestones are counted. *)
Definition extracting (projects : gmap str Project) : Prop :=
  forall k p, projects !! k = Some p ->
              k = jira_project /\
              map_Forall (fun _ v => is_Some v) (Milestones p).

(** [extract(self)]: the loop over the items of the channel. *)
Definition extract (items : list Item.t) (projects : gmap str Project)
  : option (gmap str Project) :=
  for_each _add_to_projects items projects.

End Extractor.

(* ===================================================================== *)
(** * The milestone resolver *)
(* ===================================================================== *)

(** [find_in_milestones]: some milestone of the listing has the title
    [mkey].  [titles] are the ['title'] fields of [r.json()]. *)
Definition find_in_milestones (titles : list str) (mkey : str) : bool :=
  bool_decide (mkey ∈ titles).

(** [milestones(self)], lines 209-212: every key of ['Milestones'] that is
    not the title of a destination milestone is mapped to [None]; the other
    keys keep their count. *)
Definition milestones (titles : list str) (p : Project) : Project :=
  mkProject
    (map_imap (fun mkey v =>
                 Some (if find_in_milestones titles mkey then v else None))
              (Milestones p))
    (Components p) (Labels p) (Issues p).

(* ===================================================================== *)
(** * The alias loop of [migrate] *)
(* ===================================================================== *)

(** Lines 236-244: the list [result] built from the labels of an issue. *)
Fixpoint alias_result (aliases : gmap str str) (labels : list str) : list str :=
  match labels with
  | [] => []
  | label :: rest =>
      match aliases !! label with
      | Some a =>
          if bool_decide (a = py "DELETED") then alias_result aliases rest
          else if bool_decide (a ≠ py "same")
               then a :: label :: alias_result aliases rest
               else label :: alias_result aliases rest
      | None => label :: alias_result aliases rest
      end
  end.

(* ===================================================================== *)
(** * The remote service, the cache file and the run state *)
(* ===================================================================== *)

(** The two POST requests of [_save_issue]: the creation of an issue, with
    [json.dumps(issue)] as its payload, and the creation of a comment on the
    issue of a given number. *)
Inductive request :=
| CreateIssue (payload : Issue)
| CreateComment (number : Z) (body : str).

(** What the program reads of a response: its status code and the
    ['number'] of its JSON content. *)
Record response := mkResponse { status_code : Z; number : Z }.

(** The file at [self.cache_path]. *)
Inductive cache_file :=
| NoFile
| EmptyFile
| Pickled (keys : list str).

(** What can be observed of a run, in order. *)
Inductive event :=
| Http (rq : request) (rs : response)
| CacheWrite (keys : list str)
| BarUpdate (n : nat).

(** An element of the list [cant_migrate]: an issue (line 230) or a title
    (line 251). *)
Inductive cant :=
| CantIssue (i : Issue)
| CantTitle (t : str).

(** The values [_save_issue] returns: [False], [True], or [None] when it
    falls off its end. *)
Inductive retval := RetFalse | RetTrue | RetNone.

(** [set_cache_path(self, cache_path)], lines 50-55: the cached keys are
    loaded from a file that exists and is not empty. *)
Definition set_cache_path (f : cache_file) (cached_data : list str) : list str :=
  match f with
  | Pickled keys => keys
  | EmptyFile | NoFile => cached_data
  end.

Section Migration.

(** The destination: a state machine that answers POST requests. *)
Variable World : Type.
Variable http_post : World -> request -> World * response.

(** [self.dry_run] and [self.aliases]. *)
Variable dry_run : bool.
Variable aliases : gmap str str.

(** The state [migrate] works on: [self.cached_data], the cache file, the
    destination, the ['Milestones'] dict of the project, the local list
    [cant_migrate], and the log of what has been done.  [migrate] sets
    [Milestones_] and [cant_migrate] when it starts. *)
Record state := mkState {
  cached_data : list str;
  file : cache_file;
  world : World;
  Milestones_ : gmap str (option Z);
  cant_migrate : list cant;
  log : list event
}.

Definition record (e : event) (st : state) : state :=
  mkState (cached_data st) (file st) (world st) (Milestones_ st)
          (cant_migrate st) (log st ++ [e]).

(** [bar.update(n)] *)
Definition bar_update (n : nat) (st : state) : state :=
  record (BarUpdate n) st.

(** [cant_migrate.append(x)] *)
Definition cant_append (x : cant) (st : state) : state :=
  mkState (cached_data st) (file st) (world st) (Milestones_ st)
          (cant_migrate st ++ [x]) (log st).

(** A POST request: the destination answers and moves on. *)
Definition post (rq : request) (st : state) : state * response :=
  let '(w, rs) := http_post (world st) rq in
  (record (Http rq rs)
     (mkState (cached_data st) (file st) w (Milestones_ st)
              (cant_migrate st) (log st)),
   rs).

(** Lines 278-280: append the key and rewrite the cache file. *)
Definition save_cache (k : str) (st : state) : state :=
  let keys := cached_data st ++ [k] in
  record (CacheWrite keys)
    (mkState keys (Pickled keys) (world st) (Milestones_ st)
             (cant_migrate st) (log st)).

(** Lines 286-292: one request per comment; the responses are not read. *)
Definition post_comments (number : Z) (comments : list str) (st : state)
  : state :=
  foldl (fun st comment => fst (post (CreateComment number comment) st))
        st comments.

(** [_save_issue(self, issue, comments)].  [response_create] is bound
    only when [dry_run] is [False]; reading it unbound would raise. *)
Definition _save_issue (issue : Issue) (comments : list str) (st : state)
  : option (state * retval) :=
  let '(st, response_create) :=
    if dry_run then (st, None)
    else let '(st, rs) := post (CreateIssue issue) st in (st, Some rs) in
  if match response_create with
     | Some rs => bool_decide (status_code rs ≠ 201%Z)
     | None => false
     end
  then Some (st, RetFalse)
  else
    let st := save_cache (key issue) st in
    if dry_run then Some (st, RetTrue)
    else
      content ← response_create;
      Some (post_comments (number content) comments st, RetNone).

(** [d[k]] on the [defaultdict(int)] ['Milestones']: a missing key is
    inserted with the value [0]. *)
Definition Milestones_get (k : str) (st : state) : option Z * state :=
  match Milestones_ st !! k with
  | Some v => (v, st)
  | None =>
      (Some 0%Z,
       mkState (cached_data st) (file st) (world st)
               (<[k := Some 0%Z]> (Milestones_ st))
               (cant_migrate st) (log st))
  end.

(** Lines 235-253: the body of the loop once the milestone is settled.
    The list [result] of the alias loop is not read after it is built. *)
Definition submit (index : nat) (issue : Issue) (st : state)
  : option (state * Issue) :=
  let result :=
    if bool_decide (aliases ≠ ∅)
    then Some (alias_result aliases (labels issue)) else None in
  comments ← comments issue;
  let issue := set_comments None issue in
  '(st, saved) ← _save_issue issue comments st;
  let st :=
    match saved with
    | RetFalse => cant_append (CantTitle (title issue)) st
    | RetTrue | RetNone => st
    end in
  Some (bar_update index st, issue).

(** Lines 227-233: the milestone of the issue is read from ['Milestones'];
    the boolean tells whether the loop goes on with the issue ([true]) or
    gives it up ([false], the [continue] of line 231). *)
Definition resolve_milestone (issue : Issue) (st : state)
  : state * Issue * bool :=
  match milestone_name issue with
  | Some name =>
      let '(m, st) := Milestones_get name st in
      let issue := set_milestone (Some m) issue in
      match m with
      | None => (st, issue, false)
      | Some _ => (st, set_milestone_name None issue, true)
      end
  | None => (st, issue, true)
  end.

(** Lines 223-253: the body of the loop of [migrate] for one issue; the
    result holds the issue as the loop leaves it. *)
Definition migrate_issue (index : nat) (issue : Issue) (st : state)
  : option (state * Issue) :=
  if bool_decide (key issue ∈ cached_data st)
  then Some (bar_update index st, issue)
  else
    let '(st, issue, resolved) := resolve_milestone issue st in
    if resolved then submit index issue st
    else Some (cant_append (CantIssue issue) st, issue).

(** The loop of line 222 from position [index] on. *)
Fixpoint migrate_loop (index : nat) (issues : list Issue) (st : state)
  : option (state * list Issue) :=
  match issues with
  | [] => Some (st, [])
  | issue :: rest =>
      '(st, issue') ← migrate_issue index issue st;
      '(st, rest') ← migrate_loop (S index) rest st;
      Some (st, issue' :: rest')
  end.

(** [migrate(self)] on [p], the entry [self.projects[self.jira_project]]:
    the loop runs over its issues and reads its ['Milestones'];
    [cant_migrate] starts empty, and the progress bar is updated once more
    after the loop.  The result holds the issues as the loop leaves them. *)
Definition migrate (p : Project) (st : state)
  : option (state * list Issue) :=
  let st := mkState (cached_data st) (file st) (world st) (Milestones p)
                    [] (log st) in
  '(st, issues') ← migrate_loop 0 (Issues p) st;
  Some (bar_update (length (Issues p)) st, issues').

(** A new process on the cache file a run has left: [__init__], then
    [set_cache_path] (lines 38 and 50-55).  Its log starts empty. *)
Definition restart (st : state) : state :=
  mkState (set_cache_path (file st) []) (file st) (world st) ∅ [] [].

(** The cached keys are those a new process would load from the file. *)
Definition synced (st : state) : Prop :=
  cached_data st = set_cache_path (file st) [].

(** ** Observations on a log *)

Definition is_creation (e : event) : bool :=
  match e with
  | Http (CreateIssue _) _ => true
  | _ => false
  end.

Definition is_comment (e : event) : bool :=
  match e with
  | Http (CreateComment _ _) _ => true
  | _ => false
  end.

Definition is_http (e : event) : bool :=
  match e with
  | Http _ _ => true
  | _ => false
  end.

(** The arguments of the progress updates of a log, in order. *)
Definition progress_updates (l : list event) : list nat :=
  omap (fun e => match e with BarUpdate n => Some n | _ => None end) l.

(** The number of issue-creation calls in a log. *)
Definition creation_calls (l : list event) : nat :=
  length (filter (fun e => is_creation e = true) l).

End Migration.

(** The ways the loop of [migrate] leaves an issue: skipped because its key
    is cached, given up for an unresolved milestone, refused by the
    destination, recorded by a dry run, or created. *)
Inductive outcome := Skipped | Unresolved | Failed | Recorded | Migrated.

Arguments cached_data {World} s.
Arguments file {World} s.
Arguments world {World} s.
Arguments Milestones_ {World} s.
Arguments cant_migrate {World} s.
Arguments log {World} s.
Arguments record {World} e st.
Arguments bar_update {World} n st.
Arguments cant_append {World} x st.
Arguments post {World} http_post rq st.
Arguments save_cache {World} k st.
Arguments post_comments {World} http_post number comments st.
Arguments _save_issue {World} http_post dry_run issue comments st.
Arguments Milestones_get {World} k st.
Arguments submit {World} http_post dry_run aliases index issue st.
Arguments resolve_milestone {World} issue st.
Arguments migrate_issue {World} http_post dry_run aliases index issue st.
Arguments migrate_loop {World} http_post dry_run aliases index issues st.
Arguments migrate {World} http_post dry_run aliases p st.
Arguments restart {World} st.
Arguments synced {World} st.

(** What one turn of the loop has done to the state when it leaves the issue
    with a given outcome: [l] is what it has logged and [c] what it has
    appended to [cant_migrate]. *)
Definition outcome_shape {World : Type} (dry_run : bool) (index : nat)
           (issue : Issue) (st st' : state World)
           (l : list event) (c : list cant) (o : outcome) : Prop :=
  match o with
  | Skipped =>
      (key issue ∈ cached_data st) /\ l = [BarUpdate index] /\ c = [] /\
      cached_data st' = cached_data st /\ file st' = file st /\
      world st' = world st
  | Unresolved =>
      (key issue ∉ cached_data st) /\ l = [] /\
      (exists name, milestone_name issue = Some name /\
                    Milestones_ st !! name = Some None /\
                    c = [CantIssue (set_milestone (Some None) issue)]) /\
      cached_data st' = cached_data st /\ file st' = file st /\
      world st' = world st
  | Failed =>
      (key issue ∉ cached_data st) /\ dry_run = false /\
      (exists payload rs,
          key payload = key issue /\ labels payload = labels issue /\
          status_code rs <> 201%Z /\
          l = [Http (CreateIssue payload) rs; BarUpdate index]) /\
      c = [CantTitle (title issue)] /\
      cached_data st' = cached_data st /\ file st' = file st
  | Recorded =>
      (key issue ∉ cached_data st) /\ dry_run = true /\
      l = [CacheWrite (cached_data st'); BarUpdate index] /\ c = [] /\
      cached_data st' = cached_data st ++ [key issue] /\
      file st' = Pickled (cached_data st') /\ world st' = world st
  | Migrated =>
      (key issue ∉ cached_data st) /\ dry_run = false /\
      (exists payload rs lc,
          key payload = key issue /\ labels payload = labels issue /\
          status_code rs = 201%Z /\
          Forall (fun e => is_comment e = true) lc /\
          Some (length lc) = length <$> comments issue /\
          l = Http (CreateIssue payload) rs
                :: CacheWrite (cached_data st') :: lc ++ [BarUpdate index]) /\
      c = [] /\
      cached_data st' = cached_data st ++ [key issue] /\
      file st' = Pickled (cached_data st')
  end.

(* ===================================================================== *)
(** * The rest of the program *)
(* ===================================================================== *)

(** The number of spaces [s] begins with. *)
Fixpoint leading_spaces (s : str) : nat :=
  match s with
  | c :: s' => if c =? space then S (leading_spaces s') else O
  | [] => O
  end.

(** ** [set_aliases_path] *)

(** [dict(r)], line 65, on the rows the reader yields: the rows are taken
    in order, a later row replaces an earlier one with the same first
    field, and a row that has not exactly two fields raises a
    ValueError. *)
Fixpoint dict_of_rows (rows : list (list str)) (d : gmap str str)
  : option (gmap str str) :=
  match rows with
  | [] => Some d
  | [k; v] :: rows' => dict_of_rows rows' (<[k := v]> d)
  | _ :: _ => None
  end.

(** [set_aliases_path(self, aliases_path)]: [rows] is [None] when no path
    is given, and else the rows of the file. *)
Definition set_aliases_path (rows : option (list (list str)))
  : option (gmap str str) :=
  match rows with
  | None => Some ∅
  | Some rows => dict_of_rows rows ∅
  end.

(** The value the rows give to a key, if any: the second field of the last
    row whose first field is the key. *)
Definition row_value (k : str) (rows : list (list str)) : option str :=
  last (omap (fun r => match r with
                       | [k'; v] => if bool_decide (k' = k) then Some v else None
                       | _ => None
                       end) rows).

(** ** The items that count *)

(** The project key of the item is the configured one. *)
Definition of_project (jira_project : str) (item : Item.t) : bool :=
  bool_decide (item_project item = Some jira_project).

(** The items from the last item of another project on; all the items when
    there is no such item. *)
Fixpoint kept_items (jira_project : str) (items : list Item.t) : list Item.t :=
  match items with
  | [] => []
  | item :: rest =>
      if forallb (of_project jira_project) rest then item :: rest
      else kept_items jira_project rest
  end.

(** The number of occurrences of [x] in [l], as an [int]. *)
Definition occurrences (x : str) (l : list str) : Z :=
  Z.of_nat (length (filter (fun y => y = x) l)).

(** The count a [defaultdict(int)] holds for [x] once the elements of [l]
    have been counted: no entry for an element that does not occur. *)
Definition histogram (l : list str) (x : str) : option Z :=
  let n := occurrences x l in
  if (0 <? n)%Z then Some n else None.

(** The three dicts of an entry count what the items [its] give: their
    labels, their components and their fix versions. *)
Definition counted (p : Project) (its : list Item.t) : Prop :=
  (forall x, Labels p !! x = histogram (its ≫= counted_labels) x) /\
  (forall x, Components p !! x
             = histogram (its ≫= fun it => option_list (Item.component it)) x) /\
  (forall v, Milestones p !! v
             = Some <$> histogram
                          (its ≫= fun it => option_list (Item.fixVersion it)) v).

(** ** Observations on a log *)

(** The requests of a log, in order. *)
Definition requests (l : list event) : list request :=
  omap (fun e => match e with Http rq _ => Some rq | _ => None end) l.

(** The keys of the issues whose creation a log requests, in order. *)
Definition creation_keys (l : list event) : list str :=
  omap (fun e => match e with
                 | Http (CreateIssue payload) _ => Some (key payload)
                 | _ => None
                 end) l.

(** ** The script *)

Section Main.

Variable name2codepoint : list (str * N).
Variable World : Type.
Variable http_post : World -> request -> World * response.

(** The GET request of [milestones], for a destination that answers with
    the JSON array of its milestones, of which the program reads the
    titles.  An answer of another form (the JSON object of an error, on
    which [milestone['title']] of line 203 raises) and the failures of the
    network are outside of this model. *)
Variable list_milestones : World -> World * list str.

(** [extract(self)], lines 88-91, on the items of the parsed document:
    [all_xml.channel.item] raises an AttributeError when the channel has
    no item.  The items are those [Item.t] describes: each has the
    children and the texts that [_add_to_projects] reads without
    protection, so the exceptions of lines 110-120, 126-165 on an item
    that lacks one of them (a missing [title], an empty [resolved] or
    [version], a comment without [author], ...) are outside of this
    model, as are those of the file and of the parser (line 88). *)
Definition extract_document (jira_project : str) (items : list Item.t)
           (projects : gmap str Project) : option (gmap str Project) :=
  match items with
  | [] => None
  | _ :: _ => extract name2codepoint jira_project items projects
  end.

(** [milestones(self)] on [self.projects], for a listing that is an array
    of milestones: the listing is requested, then the entry of the
    configured project is resolved (a KeyError when it is missing). *)
Definition resolve_milestones (jira_project : str)
           (projects : gmap str Project) (w : World)
  : option (gmap str Project * World) :=
  let '(w, titles) := list_milestones w in
  p ← projects !! jira_project;
  Some (<[jira_project := milestones titles p]> projects, w).

(** The script of lines 316-333 without [--prettify]: the aliases and the
    cache are loaded, the document is extracted, the milestones are
    resolved and the issues are migrated.  [rows] are the rows of the alias
    file ([None] without [--aliases-path]), [file] is the cache file,
    [dry_run] tells whether [--dry-run] is given, [items] are the items of
    the document and [w] is the destination.  [None] stands for the
    exceptions this model has; the script has others (see
    [extract_document] and [list_milestones]), so a result that is not
    [None] is a result of the script on the inputs described there
    only. *)
Definition main (jira_project : str) (rows : option (list (list str)))
           (file : cache_file) (dry_run : bool) (items : list Item.t)
           (w : World) : option (state World * list Issue) :=
  aliases ← set_aliases_path rows;
  let cached_data := set_cache_path file [] in
  projects ← extract_document jira_project items ∅;
  '(projects, w) ← resolve_milestones jira_project projects w;
  p ← projects !! jira_project;
  migrate http_post dry_run aliases p
          (mkState World cached_data file w ∅ [] []).

End Main.

Arguments resolve_milestones {World} list_milestones jira_project projects w.
Arguments main name2codepoint {World} http_post list_milestones jira_project
  rows file dry_run items w.

(** ** The outcome of each issue *)

Section Outcomes.

Variable World : Type.
Variable http_post : World -> request -> World * response.
Variable dry_run : bool.
Variable aliases : gmap str str.

(** The outcome of the turn of the loop of [migrate] for an issue, read
    off the branch the turn takes (lines 223-233) and the value
    [_save_issue] returns to line 250: [False] is a failure, [True] (which
    only a dry run returns) and [None] (the end of the function, after a
    201) are the two success outcomes. *)
Definition issue_outcome (issue : Issue) (st : state World) : option outcome :=
  if bool_decide (key issue ∈ cached_data st) then Some Skipped
  else
    let '(st, issue, resolved) := resolve_milestone issue st in
    if resolved then
      comments ← comments issue;
      '(_, saved) ← _save_issue http_post dry_run (set_comments None issue)
                                comments st;
      Some (match saved with
            | RetFalse => Failed
            | RetTrue => Recorded
            | RetNone => Migrated
            end)
    else Some Unresolved.

(** The outcomes of the issues, in order, as the loop runs from position
    [index] on: each turn is taken in the state the turns before it have
    left. *)
Fixpoint loop_outcomes (index : nat) (issues : list Issue) (st : state World)
  : option (list outcome) :=
  match issues with
  | [] => Some []
  | issue :: rest =>
      o ← issue_outcome issue st;
      '(st, _) ← migrate_issue http_post dry_run aliases index issue st;
      os ← loop_outcomes (S index) rest st;
      Some (o :: os)
  end.

(** The outcomes of the issues of [p] in a run of [migrate]. *)
Definition migrate_outcomes (p : Project) (st : state World)
  : option (list outcome) :=
  loop_outcomes 0 (Issues p)
    (mkState World (cached_data st) (file st) (world st) (Milestones p)
             [] (log st)).

End Outcomes.

Arguments issue_outcome {World} http_post dry_run issue st.
Arguments loop_outcomes {World} http_post dry_run aliases index issues st.
Arguments migrate_outcomes {World} http_post dry_run aliases p st.

(** [_save_issue] has returned a success outcome. *)
Definition is_success (o : outcome) : bool :=
  match o with
  | Recorded | Migrated => true
  | Skipped | Unresolved | Failed => false
  end.

(** The keys of the issues whose outcome is a success, in order. *)
Fixpoint saved_keys (issues : list Issue) (os : list outcome) : list str :=
  match issues, os with
  | issue :: issues', o :: os' =>
      if is_success o then key issue :: saved_keys issues' os'
      else saved_keys issues' os'
  | _, _ => []
  end.

(* ===================================================================== *)
(** * Sample data *)
(* ===================================================================== *)

Module Sample.

(** A few entries of [name2codepoint]. *)
Definition entities : list (str * N) :=
  [(py "quot", 34); (py "amp", 38); (py "lt", 60); (py "gt", 62);
   (py "nbsp", 160); (py "euro", 8364)].

(** An issue as the extractor builds it. *)
Definition issue (k : string) (lbls : list str) (cs : list str)
           (m : option str) : Issue :=
  mkIssue (py "A title") (py "Bug") (py k) (py "A body") lbls (Some cs) m None.

(** A destination that answers every request with the same status. *)
Definition server (status : Z) (w : unit) (rq : request) : unit * response :=
  (w, mkResponse status 7).

(** The state of a fresh process that found neither cache file nor
    cached key. *)
Definition start : state unit := mkState unit [] NoFile tt ∅ [] [].

(** The alias file of the specification's example. *)
Definition aliases : gmap str str :=
  <[py "bug" := py "DELETED"]> (<[py "feature" := py "enhancement"]> ∅).

Definition item (k : string) (proj : option (option str)) (vs : list str)
  : Item.t :=
  Item.mk proj (py "A title") (py "Bug") (py k) (py "Open") (py "alice")
          (py "Mon, 1 Jan 2018") None (Some (py "x &lt; y")) None None vs
          None [] [].

(** The issue of the specification's alias example, with one comment. *)
Definition labelled : Issue :=
  issue "K-1" [py "bug"; py "feature"; py "other"] [py "a comment"] None.

(** An issue with a milestone, and its project as extracted. *)
Definition planned : Issue := issue "K-2" [py "Open"] [] (Some (py "1.0")).

Definition project : Project :=
  mkProject {[py "1.0" := Some 1%Z]} ∅ ∅ [labelled; planned].

(** The destination knows the milestone "2.0" only. *)
Definition titles : list str := [py "2.0"].

(** The project and the state of a fresh process once the resolver has
    run. *)
Definition resolved_project : Project := milestones titles project.

Definition resolved : state unit :=
  mkState unit [] NoFile tt (Milestones resolved_project) [] [].

(** A project whose only issue has no milestone. *)
Definition small_project : Project := mkProject ∅ ∅ ∅ [labelled].

End Sample.

Module Sample2.

(** An item of the project "K" with a fix version, a component, a
    priority, two versions, a label and a comment. *)
Definition full_item : Item.t :=
  Item.mk (Some (Some (py "K"))) (py "Full") (py "Bug") (py "K-7") (py "Open")
          (py "bob") (py "Tue, 2 Jan 2018") (Some (py "Wed, 3 Jan 2018"))
          (Some (py "a &amp; b")) (Some (py "1.0")) (Some (py "core"))
          [py "1.6.1.4"; py "1.6"] (Some (py "Major")) [py "core"]
          [Comment.mk (py "carol") (py "Thu, 4 Jan 2018") (Some (py "ok"))].

(** A document: an item of "K", an item of another project, then two
    items of "K". *)
Definition document : list Item.t :=
  [Sample.item "K-1" None []; Sample.item "J-2" None [];
   full_item; Sample.item "K-3" None [py "1.2.3.4"]].

(** A destination whose milestones are "1.0" and "2.0". *)
Definition list_milestones (w : unit) : unit * list str :=
  (w, [py "1.0"; py "2.0"]).

(** The state of the loop for the sample project when the listing holds
    the milestone "1.0". *)
Definition known : state unit :=
  mkState unit [] NoFile tt
          (Milestones (milestones [py "1.0"] Sample.project)) [] [].

(** A process that has loaded the keys of the sample project. *)
Definition loaded : state unit :=
  mkState unit [py "K-1"; py "K-2"] (Pickled [py "K-1"; py "K-2"]) tt ∅ [] [].

(** The rows of an alias file. *)
Definition rows : list (list str) :=
  [[py "bug"; py "DELETED"]; [py "feature"; py "enhancement"];
   [py "bug"; py "defect"]].

End Sample2.
(* ===================================================================== *)
(** * Properties of the text primitives *)
(* ===================================================================== *)

Example version_1_2_3_4 : is_version_label (py "1.2.3.4") = true.
Proof. reflexivity. Qed.

Example version_1_2 : is_version_label (py "1.2") = false.
Proof. reflexivity. Qed.

(** ** The version pattern *)

Module RegexFacts.
Import Regex.

Lemma accept_seq (a b : regex) bos s k :
  accept (Seq a b) bos s k
  = accept a bos s (fun bos' s' => accept b bos' s' k).
Proof. reflexivity. Qed.

Lemma accept_bol s k : accept Bol true s k = k true s.
Proof. reflexivity. Qed.

Lemma accept_plus (a : regex) bos s k :
  accept (Plus a) bos s k = plus_loop a k (S (length s)) bos s.
Proof. reflexivity. Qed.

Lemma accept_times_S (n : nat) (a : regex) bos s k :
  accept (Times (S n) a) bos s k
  = accept a bos s (fun bos' s' => accept (Times n a) bos' s' k).
Proof. reflexivity. Qed.

Lemma accept_times_0 (a : regex) bos s k :
  accept (Times 0 a) bos s k = k bos s.
Proof. reflexivity. Qed.

(** [\d+] takes a run of digits and hands over what follows. *)
Lemma plus_digit_run (k : bool -> str -> bool) (d rest : str) :
  digits d -> k false rest = true ->
  forall fuel bos, (length d <= fuel)%nat ->
                   plus_loop Digit k fuel bos (d ++ rest) = true.
Proof.
  intros [Hne Hall] Hk. induction Hall as [|c d Hc Hall IH]; [done|].
  intros [|fuel] bos Hlen; simpl in Hlen; [lia|].
  cbn [plus_loop app accept]. rewrite Hc. cbn [andb].
  destruct d as [|c' d].
  - cbn [app]. rewrite Hk. apply orb_true_r.
  - replace (length ((c' :: d) ++ rest) <? length (c :: (c' :: d) ++ rest))%nat
      with true by (symmetry; apply Nat.ltb_lt; simpl; lia).
    rewrite IH; [done|done|lia].
Qed.

Lemma accept_digits_then (c : N) (k : bool -> str -> bool) (d rest : str) bos :
  digits d -> c <> newline -> k false rest = true ->
  accept (Seq (Plus Digit) AnyChar) bos (d ++ c :: rest) k = true.
Proof.
  intros Hd Hc Hk. rewrite accept_seq, accept_plus.
  apply plus_digit_run; [done| |rewrite length_app; simpl; lia].
  cbn [accept]. rewrite Hk.
  by apply N.eqb_neq in Hc as ->.
Qed.

End RegexFacts.

(** Every version made of four runs of digits separated by dots passes the
    test of line 140. *)
Lemma strict_version_accepted (v : str) :
  strict_version v -> is_version_label v = true.
Proof.
  intros (d1 & d2 & d3 & d4 & H1 & H2 & H3 & H4 & ->).
  unfold is_version_label, Regex.re_match, Regex.version_re.
  rewrite RegexFacts.accept_seq, RegexFacts.accept_bol.
  rewrite RegexFacts.accept_seq, RegexFacts.accept_times_S.
  apply RegexFacts.accept_digits_then; [done|by vm_compute|].
  rewrite RegexFacts.accept_times_S.
  apply RegexFacts.accept_digits_then; [done|by vm_compute|].
  rewrite RegexFacts.accept_times_S.
  apply RegexFacts.accept_digits_then; [done|by vm_compute|].
  rewrite RegexFacts.accept_times_0, RegexFacts.accept_seq,
    RegexFacts.accept_plus.
  rewrite <- (app_nil_r d4).
  apply RegexFacts.plus_digit_run; [done|done|rewrite app_nil_r; lia].
Qed.

(** A version in that strict form contains a dot. *)
Lemma strict_version_has_dot (v : str) :
  strict_version v -> existsb (N.eqb dot) v = true.
Proof.
  intros (d1 & d2 & d3 & d4 & _ & _ & _ & _ & ->).
  rewrite existsb_app. cbn [existsb]. rewrite N.eqb_refl.
  apply orb_true_iff. right. done.
Qed.

Lemma starts_with_app (p rest : str) : starts_with p (p ++ rest) = true.
Proof.
  induction p as [|a p IH]; simpl; [done|].
  by rewrite N.eqb_refl, IH.
Qed.

Lemma starts_with_inv (p s : str) :
  starts_with p s = true -> exists rest, s = p ++ rest.
Proof.
  revert s; induction p as [|a p IH]; intros s H; simpl in *.
  - by exists s.
  - destruct s as [|b s]; [done|].
    apply andb_prop in H as [Hab Hp].
    apply N.eqb_eq in Hab as ->.
    destruct (IH _ Hp) as [rest ->]. by exists rest.
Qed.

Lemma starts_with_false (p s : str) :
  starts_with p s = false -> forall rest, s <> p ++ rest.
Proof.
  intros H rest ->. by rewrite starts_with_app in H.
Qed.

Lemma replace_from_skip (old new pre s : str) :
  replace_from old new (length pre) (pre ++ s) = replace_from old new 0 s.
Proof.
  induction pre as [|c pre IH]; simpl; [|exact IH].
  by destruct s.
Qed.

Lemma str_replace_hit (a : N) (old new rest : str) :
  str_replace (a :: old) new ((a :: old) ++ rest)
  = new ++ str_replace (a :: old) new rest.
Proof.
  unfold str_replace.
  change ((a :: old) ++ rest) with (a :: (old ++ rest)).
  cbn [replace_from].
  change (a :: old ++ rest) with ((a :: old) ++ rest).
  rewrite starts_with_app. cbn [length Nat.pred].
  by rewrite replace_from_skip.
Qed.

Lemma str_replace_miss (old new : str) (c : N) (s : str) :
  starts_with old (c :: s) = false ->
  str_replace old new (c :: s) = c :: str_replace old new s.
Proof. unfold str_replace. cbn [replace_from]. by intros ->. Qed.

Lemma collapsed_complete (s : str) :
  collapsed s (str_replace (replicate 8 space) [] s).
Proof.
  remember (length s) as n eqn:Hn.
  revert s Hn; induction n as [n IH] using lt_wf_ind; intros s Hn.
  destruct s as [|c s]; [constructor|].
  destruct (starts_with (replicate 8 space) (c :: s)) eqn:Hsw.
  - apply starts_with_inv in Hsw as [rest Hrest].
    rewrite Hrest.
    change (replicate 8 space) with (space :: replicate 7 space) at 2 3.
    rewrite str_replace_hit. cbn [app].
    change (space :: replicate 7 space) with (replicate 8 space).
    constructor.
    apply (IH (length rest)); [|done].
    subst n. rewrite Hrest, length_app. simpl. lia.
  - rewrite str_replace_miss by done.
    constructor; [by apply starts_with_false|].
    apply (IH (length s)); [subst n; simpl; lia | done].
Qed.

Lemma collapsed_sound (s out : str) :
  collapsed s out -> out = str_replace (replicate 8 space) [] s.
Proof.
  induction 1 as [|s out _ IH|c s out Hno _ IH].
  - done.
  - change (replicate 8 space) with (space :: replicate 7 space).
    by rewrite str_replace_hit.
  - rewrite str_replace_miss, <- IH; [done|].
    destruct (starts_with _ _) eqn:Hsw; [|done].
    apply starts_with_inv in Hsw as [rest Hrest]. by destruct (Hno rest).
Qed.

(* ===================================================================== *)
(** * Properties of the HTML entity decoding *)
(* ===================================================================== *)

Section EntityFacts.

Variable tbl : list (str * N).

Lemma sub_from_skip (pre s : str) :
  sub_from tbl (length pre) (pre ++ s) = sub_from tbl 0 s.
Proof.
  induction pre as [|c pre IH]; simpl; [|exact IH].
  by destruct s.
Qed.

(** The name found by the alternation is a key of the dict and is followed
    by [;] in the text. *)
Lemma match_names_found (d : list (str * N)) (s n : str) :
  match_names d s = Some n ->
  (exists cp, dict_get d n = Some cp) /\ exists rest, s = n ++ semicolon :: rest.
Proof.
  induction d as [|[n' cp'] d IH]; simpl; [done|].
  destruct (starts_with (n' ++ [semicolon]) s) eqn:Hsw.
  - intros [= <-]. split.
    + exists cp'. by rewrite bool_decide_eq_true_2.
    + apply starts_with_inv in Hsw as [rest ->].
      exists rest. by rewrite <- app_assoc.
  - intros H. destruct (IH H) as [[cp Hcp] Hrest]. split; [|done].
    case_bool_decide; eauto.
Qed.

(** A key of the dict that is followed by [;] makes the alternation
    succeed (with that key or an earlier alternative). *)
Lemma match_names_some (d : list (str * N)) (n rest : str) (cp : N) :
  dict_get d n = Some cp ->
  is_Some (match_names d (n ++ semicolon :: rest)).
Proof.
  induction d as [|[n' cp'] d IH]; simpl; [done|].
  case_bool_decide as Hn.
  - subst n'. intros _.
    replace (n ++ semicolon :: rest) with ((n ++ [semicolon]) ++ rest)
      by (by rewrite <- app_assoc).
    by rewrite starts_with_app.
  - intros H. destruct (starts_with _ _); [done|]. by apply IH.
Qed.

Lemma semicolon_free_spec (n : str) :
  existsb (N.eqb semicolon) n = false <-> semicolon ∉ n.
Proof.
  induction n as [|c n IH]; cbn [existsb].
  - split; [intros _ H; inversion H | done].
  - rewrite orb_false_iff, IH, not_elem_of_cons, N.eqb_neq.
    split; intros [H1 H2]; split; congruence.
Qed.

(** Two names without [;] that are both followed by [;] at the same place
    are the same name. *)
Lemma name_unique (n1 n2 r1 r2 : str) :
  semicolon ∉ n1 -> semicolon ∉ n2 ->
  n1 ++ semicolon :: r1 = n2 ++ semicolon :: r2 -> n1 = n2.
Proof.
  revert n2; induction n1 as [|a n1 IH]; intros [|b n2] H1 H2 Heq;
    simpl in Heq.
  - done.
  - injection Heq as <- _. exfalso. apply H2. by left.
  - injection Heq as -> _. exfalso. apply H1. by left.
  - injection Heq as -> Heq.
    apply not_elem_of_cons in H1 as [_ H1].
    apply not_elem_of_cons in H2 as [_ H2].
    f_equal. by apply IH.
Qed.

Lemma dict_get_plain (d : list (str * N)) (n : str) (cp : N) :
  forallb (fun e : str * N => negb (existsb (N.eqb semicolon) e.1)) d = true ->
  dict_get d n = Some cp -> semicolon ∉ n.
Proof.
  induction d as [|[n' cp'] d IH]; simpl; [done|].
  intros [Hn' Hd]%andb_prop.
  case_bool_decide as Hn.
  - subst n'. intros _. apply semicolon_free_spec.
    by apply negb_true_iff in Hn'.
  - by apply IH.
Qed.

Lemma entity_at_found (s n : str) :
  entity_at tbl s = Some n ->
  exists cp rest,
    recognized tbl n cp /\ s = ampersand :: n ++ semicolon :: rest.
Proof.
  destruct s as [|c s]; simpl; [done|].
  destruct (c =? ampersand) eqn:Hc; [|done].
  apply N.eqb_eq in Hc as ->. intros H.
  apply match_names_found in H as [[cp Hcp] [rest ->]].
  by exists cp, rest.
Qed.

Lemma entity_at_none (s : str) :
  entity_at tbl s = None -> ~ entity_prefix tbl s.
Proof.
  intros H (n & cp & rest & Hn & ->).
  unfold entity_at in H. rewrite N.eqb_refl in H.
  destruct (match_names_some _ _ rest _ Hn) as [n' Hn'].
  congruence.
Qed.

Lemma re_sub_entity (n rest : str) (cp : N) :
  names_plain tbl = true ->
  recognized tbl n cp ->
  re_sub_entities tbl (ampersand :: n ++ semicolon :: rest)
  = cp :: re_sub_entities tbl rest.
Proof.
  intros Hplain Hn. unfold re_sub_entities.
  cbn [sub_from].
  destruct (entity_at tbl _) as [n'|] eqn:Hat.
  - destruct (entity_at_found _ _ Hat) as (cp' & rest' & Hn' & Heq).
    injection Heq as Heq.
    assert (n = n') as <-.
    { eapply name_unique; [ | | exact Heq];
        eapply dict_get_plain; eauto. }
    unfold entity_char. rewrite Hn. cbn [app]. f_equal.
    replace (S (length n)) with (length (n ++ [semicolon]))
      by (rewrite length_app; simpl; lia).
    replace (n ++ semicolon :: rest) with ((n ++ [semicolon]) ++ rest)
      by (by rewrite <- app_assoc).
    apply sub_from_skip.
  - exfalso. apply entity_at_none in Hat. apply Hat.
    by exists n, cp, rest.
Qed.

Lemma re_sub_other (c : N) (s : str) :
  ~ entity_prefix tbl (c :: s) ->
  re_sub_entities tbl (c :: s) = c :: re_sub_entities tbl s.
Proof.
  intros Hno. unfold re_sub_entities. cbn [sub_from].
  destruct (entity_at tbl _) as [n|] eqn:Hat; [|done].
  exfalso. apply Hno.
  destruct (entity_at_found _ _ Hat) as (cp & rest & Hn & Heq).
  by exists n, cp, rest.
Qed.

Lemma entities_replaced_sound (s out : str) :
  names_plain tbl = true ->
  entities_replaced tbl s out -> out = re_sub_entities tbl s.
Proof.
  intros Hplain.
  induction 1 as [|n cp rest out Hn _ IH|c s out Hno _ IH].
  - done.
  - by rewrite (re_sub_entity _ _ cp), <- IH.
  - by rewrite re_sub_other, <- IH.
Qed.

Lemma entities_replaced_complete (s : str) :
  entities_replaced tbl s (re_sub_entities tbl s).
Proof.
  remember (length s) as m eqn:Hm.
  revert s Hm; induction m as [m IH] using lt_wf_ind; intros s Hm.
  destruct s as [|c s]; [constructor|].
  destruct (entity_at tbl (c :: s)) as [n|] eqn:Hat.
  - destruct (entity_at_found _ _ Hat) as (cp & rest & Hn & Heq).
    unfold re_sub_entities. cbn [sub_from]. rewrite Hat.
    unfold entity_char. rewrite Hn. cbn [app].
    rewrite Heq. injection Heq as -> ->.
    replace (S (length n)) with (length (n ++ [semicolon]))
      by (rewrite length_app; simpl; lia).
    replace (n ++ semicolon :: rest) with ((n ++ [semicolon]) ++ rest) at 2
      by (by rewrite <- app_assoc).
    rewrite sub_from_skip.
    constructor; [done|].
    apply (IH (length rest)); [|done].
    subst m. simpl. rewrite length_app. simpl. lia.
  - rewrite re_sub_other by (by apply entity_at_none).
    constructor; [by apply entity_at_none|].
    apply (IH (length s)); [subst m; simpl; lia | done].
Qed.

(** Text without [&] is left as it is. *)
Lemma re_sub_plain (s : str) :
  ampersand ∉ s -> re_sub_entities tbl s = s.
Proof.
  induction s as [|c s IH]; [done|].
  intros [Hc Hs]%not_elem_of_cons.
  rewrite re_sub_other, IH; [done|done|].
  intros (n & cp & rest & _ & Heq). by injection Heq as -> _.
Qed.

(** A known entity is decoded: ["&amp;"] gives ["&"]. *)
Lemma known_entity_decoded :
  names_plain tbl = true ->
  dict_get tbl (py "amp") = Some ampersand ->
  htmlentitydecode tbl (Some (py "&amp;")) = py "&".
Proof.
  intros Hplain Hamp. unfold htmlentitydecode.
  change (str_replace (replicate 8 space) [] (py "&amp;"))
    with (ampersand :: py "amp" ++ semicolon :: []).
  by rewrite (re_sub_entity _ _ ampersand).
Qed.

(** An unknown entity is left unchanged. *)
Lemma unknown_entity_unchanged (n : str) :
  names_plain tbl = true ->
  dict_get tbl n = None ->
  ampersand ∉ n -> semicolon ∉ n ->
  re_sub_entities tbl (ampersand :: n ++ [semicolon])
  = ampersand :: n ++ [semicolon].
Proof.
  intros Hplain Hn Hamp Hsemi.
  rewrite re_sub_other.
  - rewrite re_sub_plain; [done|].
    intros [H|H]%elem_of_app; [done|].
    by apply list_elem_of_singleton in H.
  - intros (n' & cp & rest & Hn' & Heq). injection Heq as Heq.
    assert (n = n') as <-; [|unfold recognized in Hn'; congruence].
    eapply name_unique; [done| |exact Heq].
    eapply dict_get_plain; eauto.
Qed.

End EntityFacts.

(** C7.  The decoding function [htmlentitydecode] is the reference decoding
    of the specification: a null text gives the empty string; any other text
    has its sequences of 8 consecutive spaces collapsed to nothing, then
    every recognized named entity replaced by its character, everything
    else (unrecognized entities included) being left unchanged.  The
    function is total, so it never fails. *)
Theorem htmlentitydecode_refines (tbl : list (str * N)) :
  names_plain tbl = true ->
  forall (s : option str) (out : str),
    decoded_spec tbl s out <-> htmlentitydecode tbl s = out.
Proof.
  intros Hplain s out; split.
  - intros [|s' mid out' Hc Hr]; [done|].
    simpl. apply collapsed_sound in Hc as ->.
    symmetry. by apply entities_replaced_sound.
  - intros <-. destruct s as [s|]; simpl; [|constructor].
    econstructor; [apply collapsed_complete|apply entities_replaced_complete].
Qed.

(* ===================================================================== *)
(** * Properties of the extractor *)
(* ===================================================================== *)

Lemma on_last_snoc (f : Issue -> option Issue) (l : list Issue) (i : Issue) :
  on_last f (l ++ [i]) = i' ← f i; Some (l ++ [i']).
Proof.
  unfold on_last. rewrite last_snoc. simpl.
  destruct (f i) as [i'|]; [|done]. simpl. f_equal.
  rewrite length_app. simpl.
  replace (Nat.pred (length l + 1)) with (length l + 0)%nat by lia.
  by rewrite insert_app_r.
Qed.

Section ExtractorFacts.

Variable tbl : list (str * N).
Variable jp : str.

(** ** The steps on the entry of the project *)

Lemma append_label_snoc (x : str) M C L (l : list Issue) (i : Issue) :
  append_label x (mkProject M C L (l ++ [i]))
  = Some (mkProject M C L (l ++ [set_labels (labels i ++ [x]) i])).
Proof. unfold append_label. simpl. by rewrite on_last_snoc. Qed.

Lemma add_label_snoc (x : str) M C L (l : list Issue) (i : Issue) :
  add_label x (mkProject M C L (l ++ [i]))
  = Some (mkProject M C (incr x L) (l ++ [set_labels (labels i ++ [x]) i])).
Proof. unfold add_label. simpl. by rewrite append_label_snoc. Qed.

Lemma add_labels_snoc (xs : list str) M C L (l : list Issue) t ty k b ls cs mn m :
  for_each add_label xs (mkProject M C L (l ++ [mkIssue t ty k b ls cs mn m]))
  = Some (mkProject M C (foldl (fun d x => incr x d) L xs)
                    (l ++ [mkIssue t ty k b (ls ++ xs) cs mn m])).
Proof.
  revert L ls; induction xs as [|x xs IH]; intros L ls; simpl.
  - by rewrite app_nil_r.
  - rewrite add_label_snoc. simpl. unfold set_labels. simpl.
    rewrite IH. by rewrite <- app_assoc.
Qed.

Lemma add_versions_snoc (vs : list str) M C L (l : list Issue)
      t ty k b ls cs mn m :
  for_each add_version vs (mkProject M C L (l ++ [mkIssue t ty k b ls cs mn m]))
  = Some (mkProject M C
            (foldl (fun d x => incr x d) L
                   (filter (fun v => is_version_label v = true) vs))
            (l ++ [mkIssue t ty k b
                     (ls ++ filter (fun v => is_version_label v = true) vs)
                     cs mn m])).
Proof.
  revert L ls; induction vs as [|v vs IH]; intros L ls; simpl.
  - by rewrite app_nil_r.
  - unfold add_version. destruct (is_version_label v) eqn:Hv.
    + rewrite add_label_snoc. simpl. unfold set_labels. simpl.
      rewrite IH. rewrite filter_cons_True by done. simpl.
      by rewrite <- app_assoc.
    + simpl. rewrite IH. rewrite filter_cons_False; [done|].
      by rewrite Hv.
Qed.

Lemma add_comments_snoc (cs : list Comment.t) M C L (l : list Issue)
      t ty k b ls done_cs mn m :
  for_each (add_comment tbl) cs
    (mkProject M C L (l ++ [mkIssue t ty k b ls (Some done_cs) mn m]))
  = Some (mkProject M C L
            (l ++ [mkIssue t ty k b ls
                     (Some (done_cs ++ (comment_text tbl <$> cs))) mn m])).
Proof.
  revert done_cs; induction cs as [|c cs IH]; intros done_cs; simpl.
  - by rewrite app_nil_r.
  - unfold add_comment. simpl. rewrite on_last_snoc. simpl.
    unfold set_comments. simpl. rewrite IH.
    by rewrite <- app_assoc.
Qed.

(** On an entry whose milestones are counted, the steps of an item never
    raise, and their result is the closed form. *)
Lemma add_item_extracted (item : Item.t) (p : Project) :
  map_Forall (fun _ v => is_Some v) (Milestones p) ->
  add_item tbl item p = Some (extracted_project tbl item p).
Proof.
  intros Hcounts. unfold add_item, extracted_project, extracted_issue.
  destruct p as [M C L l]. simpl in *.
  unfold new_issue, counted_labels, version_labels.
  destruct item as [proj t ty k status rep cr res desc fv comp vs prio lbls cms].
  simpl.
  (* fixVersion *)
  assert (exists M',
    when_present fv add_fixVersion
      (mkProject M C L (l ++ [mkIssue t ty k
          (body (new_issue tbl
             (Item.mk proj t ty k status rep cr res desc fv comp vs prio
                      lbls cms)))
          [status; ty] (Some []) None None]))
    = Some (mkProject M' C L (l ++ [mkIssue t ty k
          (body (new_issue tbl
             (Item.mk proj t ty k status rep cr res desc fv comp vs prio
                      lbls cms)))
          [status; ty] (Some []) fv None]))
    /\ M' = match fv with
            | Some v => <[v := Some (default 0%Z (M !! v ≫= id) + 1)%Z]> M
            | None => M
            end) as (M' & Hfv & HM').
  { destruct fv as [v|]; simpl; [|by eexists].
    unfold add_fixVersion, incr_milestone. simpl.
    destruct (M !! v) as [[n|]|] eqn:Hv; simpl.
    - rewrite on_last_snoc. simpl. by eexists.
    - by destruct (Hcounts _ _ Hv).
    - rewrite on_last_snoc. simpl. by eexists. }
  unfold new_issue in Hfv. simpl in Hfv. rewrite Hfv. simpl. subst M'.
  clear Hfv.
  (* component *)
  destruct comp as [c|]; simpl.
  - unfold add_component. simpl. rewrite append_label_snoc. simpl.
    unfold set_labels. simpl.
    rewrite add_versions_snoc. simpl.
    destruct prio as [x|]; simpl.
    + rewrite add_label_snoc. simpl. unfold set_labels. simpl.
      rewrite add_labels_snoc. simpl. rewrite add_comments_snoc. simpl.
      by rewrite ?foldl_app, <- ?app_assoc.
    + rewrite add_labels_snoc. simpl. rewrite add_comments_snoc. simpl.
      by rewrite ?foldl_app, <- ?app_assoc.
  - rewrite add_versions_snoc. simpl.
    destruct prio as [x|]; simpl.
    + rewrite add_label_snoc. simpl. unfold set_labels. simpl.
      rewrite add_labels_snoc. simpl. rewrite add_comments_snoc. simpl.
      by rewrite ?foldl_app, <- ?app_assoc.
    + rewrite add_labels_snoc. simpl. rewrite add_comments_snoc. simpl.
      by rewrite ?foldl_app, <- ?app_assoc.
Qed.

(** ** From the entry to [self.projects] *)

Lemma on_project_insert (f : Project -> option Project) (p : Project)
      (Q : gmap str Project) :
  on_project jp f (<[jp := p]> Q) = p' ← f p; Some (<[jp := p']> Q).
Proof.
  unfold on_project. rewrite lookup_insert_eq. simpl.
  destruct (f p) as [p'|]; [|done]. simpl. by rewrite insert_insert_eq.
Qed.

Lemma when_present_on_project {A : Type} (x : option A)
      (g : A -> Project -> option Project) (p : Project)
      (Q : gmap str Project) :
  when_present x (fun a => on_project jp (g a)) (<[jp := p]> Q)
  = p' ← when_present x g p; Some (<[jp := p']> Q).
Proof. destruct x as [a|]; simpl; [apply on_project_insert|done]. Qed.

Lemma for_each_on_project {A : Type} (l : list A)
      (g : A -> Project -> option Project) (p : Project)
      (Q : gmap str Project) :
  for_each (fun a => on_project jp (g a)) l (<[jp := p]> Q)
  = p' ← for_each g l p; Some (<[jp := p']> Q).
Proof.
  revert p; induction l as [|a l IH]; intros p; simpl; [done|].
  rewrite on_project_insert.
  destruct (g a p) as [p1|]; [|done]. simpl. apply IH.
Qed.

(** Once the entry is chosen, [_add_to_projects] is [add_item] on it. *)
Lemma add_to_projects_on (item : Item.t) (P Q : gmap str Project)
      (p0 : Project) :
  (if in_projects (item_project item) P then P
   else <[jp := empty_project]> P) = <[jp := p0]> Q ->
  _add_to_projects tbl jp item P
  = p' ← add_item tbl item p0; Some (<[jp := p']> Q).
Proof.
  intros Hbase. unfold _add_to_projects, add_item. rewrite Hbase.
  rewrite on_project_insert. simpl.
  rewrite when_present_on_project.
  destruct (when_present (Item.fixVersion item) _ _) as [p1|]; [|done]. simpl.
  rewrite when_present_on_project.
  destruct (when_present (Item.component item) _ _) as [p2|]; [|done]. simpl.
  rewrite for_each_on_project.
  destruct (for_each add_version _ _) as [p3|]; [|done]. simpl.
  rewrite when_present_on_project.
  destruct (when_present (Item.priority item) _ _) as [p4|]; [|done]. simpl.
  rewrite for_each_on_project.
  destruct (for_each add_label _ _) as [p5|]; [|done]. simpl.
  apply for_each_on_project.
Qed.

(** During the extraction the configured key is the only key there can
    be, so an item of another project finds its key missing. *)
Lemma in_projects_configured (item : Item.t) (P : gmap str Project) :
  extracting jp P ->
  in_projects (item_project item) P = true ->
  item_project item = Some jp /\ is_Some (P !! jp).
Proof.
  intros Hext. unfold in_projects.
  destruct (item_project item) as [k|]; [|done].
  intros [p Hp]%bool_decide_eq_true.
  destruct (Hext _ _ Hp) as [-> _]. split; [done|by exists p].
Qed.

Lemma insert_only_key (P : gmap str Project) (p : Project) :
  extracting jp P -> <[jp := p]> P = {[jp := p]}.
Proof.
  intros Hext. apply map_eq. intros k.
  destruct (decide (k = jp)) as [->|Hne].
  - by rewrite lookup_insert_eq, lookup_singleton_eq.
  - rewrite lookup_insert_ne, lookup_singleton_ne by done.
    destruct (P !! k) as [q|] eqn:Hq; [|done].
    by destruct (Hext _ _ Hq) as [-> _].
Qed.

Lemma extracted_counts (item : Item.t) (p : Project) :
  map_Forall (fun _ v => is_Some v) (Milestones p) ->
  map_Forall (fun _ v => is_Some v) (Milestones (extracted_project tbl item p)).
Proof.
  intros Hc. unfold extracted_project. simpl.
  destruct (Item.fixVersion item) as [v|]; [|done].
  by apply map_Forall_insert_2.
Qed.

Lemma extracting_singleton (p : Project) :
  map_Forall (fun _ v => is_Some v) (Milestones p) ->
  extracting jp {[jp := p]}.
Proof.
  intros Hc k q Hq. apply lookup_singleton_Some in Hq as [<- <-]. done.
Qed.

(** What [_add_to_projects] returns, by whether the key of the item is
    found. *)
Lemma add_to_projects_result (item : Item.t) (P : gmap str Project) :
  extracting jp P ->
  _add_to_projects tbl jp item P
  = Some {[jp := extracted_project tbl item
                   (if in_projects (item_project item) P
                    then default empty_project (P !! jp)
                    else empty_project)]}.
Proof.
  intros Hext.
  destruct (in_projects (item_project item) P) eqn:Hin.
  - destruct (in_projects_configured _ _ Hext Hin) as [_ [p Hp]].
    rewrite (add_to_projects_on item P P p)
      by (by rewrite Hin, insert_id).
    rewrite Hp. simpl.
    rewrite add_item_extracted by (by destruct (Hext _ _ Hp)). simpl.
    by rewrite insert_only_key.
  - rewrite (add_to_projects_on item P P empty_project) by (by rewrite Hin).
    rewrite add_item_extracted by (apply map_Forall_empty). simpl.
    by rewrite insert_only_key.
Qed.

End ExtractorFacts.

(** ** The loop of [extract] *)

Lemma for_each_app {A S : Type} (f : A -> S -> option S) (l1 l2 : list A)
      (s : S) :
  for_each f (l1 ++ l2) s = s' ← for_each f l1 s; for_each f l2 s'.
Proof.
  revert s; induction l1 as [|a l1 IH]; intros s; simpl; [done|].
  destruct (f a s) as [s1|]; [|done]. simpl. apply IH.
Qed.

(** The extraction never raises, and keeps [self.projects] in the shape it
    has during the extraction. *)
Lemma extract_total (tbl : list (str * N)) (jp : str) (items : list Item.t)
      (P : gmap str Project) :
  extracting jp P ->
  exists P', extract tbl jp items P = Some P' /\ extracting jp P'.
Proof.
  revert P; induction items as [|item items IH]; intros P Hext.
  - by exists P.
  - unfold extract. cbn [for_each].
    rewrite add_to_projects_result by done. simpl.
    apply IH. apply extracting_singleton. apply extracted_counts.
    destruct (in_projects _ _); [|apply map_Forall_empty].
    destruct (P !! jp) as [p|] eqn:Hp; [|apply map_Forall_empty].
    by destruct (Hext _ _ Hp).
Qed.

(* ===================================================================== *)
(** * The claims about the extractor *)
(* ===================================================================== *)

(** C2.  During the extraction [_add_to_projects] never raises and leaves
    [self.projects] with the configured key as its only key, whatever the
    project key of the item; the issue of the item is the last one of that
    entry.  When the project key of the item is not a key of
    [self.projects] -- as is the case whenever it differs from the
    configured key -- the entry is the one of an extraction that starts
    with this item: the issues and counts extracted before are gone. *)
Theorem extraction_under_configured_key (tbl : list (str * N)) (jp : str)
        (item : Item.t) (P : gmap str Project) :
  extracting jp P ->
  exists p',
    _add_to_projects tbl jp item P = Some {[jp := p']}
    /\ last (Issues p') = Some (extracted_issue tbl item)
    /\ (in_projects (item_project item) P = false ->
        p' = extracted_project tbl item empty_project
        /\ Issues p' = [extracted_issue tbl item])
    /\ (item_project item <> Some jp ->
        in_projects (item_project item) P = false)
    /\ (item_project item <> Some jp ->
        forall before after,
          extract tbl jp (before ++ item :: after) P
          = extract tbl jp (item :: after) ∅).
Proof.
  intros Hext. eexists. split; [by apply add_to_projects_result|].
  assert (item_project item <> Some jp ->
          in_projects (item_project item) P = false) as Hother.
  { intros Hne. destruct (in_projects _ _) eqn:Hin; [|done].
    by destruct (in_projects_configured _ _ _ Hext Hin). }
  split; [|split; [|split; [done|]]].
  - simpl. apply last_snoc.
  - by intros ->.
  - intros Hne before after. unfold extract. rewrite for_each_app.
    destruct (extract_total tbl jp before P Hext) as (P1 & HP1 & Hext1).
    unfold extract in HP1. rewrite HP1. simpl.
    rewrite !add_to_projects_result; [|by intros ? ? ?|done].
    assert (in_projects (item_project item) P1 = false) as ->.
    { destruct (in_projects _ P1) eqn:Hin; [|done].
      by destruct (in_projects_configured _ _ _ Hext1 Hin). }
    assert (in_projects (item_project item) (∅ : gmap str Project) = false)
      as ->; [|done].
    unfold in_projects. destruct (item_project item); [|done].
    apply bool_decide_eq_false_2. rewrite lookup_empty. by intros [? ?].
Qed.

(** The versions of an item that become labels are those that pass the
    test of line 140. *)
Lemma version_labels_by_test (item : Item.t) (v : str) :
  v ∈ version_labels item <-> v ∈ Item.version item /\ is_version_label v = true.
Proof. unfold version_labels. rewrite list_elem_of_filter. tauto. Qed.

(** C6 (failing input).  The test of line 140 lets through versions that
    are not four runs of digits separated by dots: the separators of
    "1-2-3-4" are not dots and "1234567" has no separator, yet both pass,
    and the extraction makes a label of such a version and counts it. *)
Theorem version_test_accepts_other_separators :
  is_version_label (py "1-2-3-4") = true
  /\ is_version_label (py "1234567") = true
  /\ ~ strict_version (py "1-2-3-4")
  /\ ~ strict_version (py "1234567")
  /\ exists p',
      extract Sample.entities (py "K")
              [Sample.item "K-1" None [py "1-2-3-4"; py "1.2"]] ∅
      = Some {[py "K" := p']}
      /\ labels <$> Issues p' = [[py "Open"; py "Bug"; py "1-2-3-4"]]
      /\ Labels p' !! py "1-2-3-4" = Some 1%Z
      /\ Labels p' !! py "1.2" = None.
Proof.
  split; [reflexivity|]. split; [reflexivity|].
  split; [by intros H%strict_version_has_dot|].
  split; [by intros H%strict_version_has_dot|].
  eexists. split.
  - unfold extract. cbn [for_each].
    rewrite add_to_projects_result by (by intros ? ? ?). reflexivity.
  - split; [|split]; vm_compute; reflexivity.
Qed.

(* ===================================================================== *)
(** * Properties of the migration driver *)
(* ===================================================================== *)

(** Case analysis on the membership of an element in an explicit list. *)
Ltac inv_elem :=
  repeat match goal with
    | H : _ ∈ [] |- _ => apply elem_of_nil in H; destruct H
    | H : _ ∈ _ :: _ |- _ => apply elem_of_cons in H as [H|H]
    | H : _ ∈ _ ++ _ |- _ => apply elem_of_app in H as [H|H]
    end.

(** Split a conjunction and settle the parts that follow from membership in
    explicit lists. *)
Ltac split_all :=
  repeat split; rewrite ?app_nil_r in *; try done;
  intros; try (intros ?); inv_elem; simplify_eq; try done.

Section MigrationFacts.

Context {World : Type}.
Variable http_post : World -> request -> World * response.

(** ** The comments of an issue *)

(** Posting comments touches the destination and the log only, and logs
    one comment request per comment. *)
Lemma post_comments_effect (n : Z) (cs : list str) (st : state World) :
  let st' := post_comments http_post n cs st in
  cached_data st' = cached_data st /\ file st' = file st /\
  Milestones_ st' = Milestones_ st /\ cant_migrate st' = cant_migrate st /\
  exists l, log st' = log st ++ l /\ length l = length cs /\
            Forall (fun e => is_comment e = true) l.
Proof.
  revert st; induction cs as [|c cs IH]; intros st; simpl.
  - repeat split; try done. exists []. by rewrite app_nil_r.
  - unfold post_comments in *. cbn [foldl].
    set (st1 := (post http_post (CreateComment n c) st).1).
    destruct (IH st1) as (Hc & Hf & Hm & Hk & l & Hl & Hlen & Hall).
    assert (cached_data st1 = cached_data st /\ file st1 = file st /\
            Milestones_ st1 = Milestones_ st /\
            cant_migrate st1 = cant_migrate st /\
            exists rs, log st1 = log st ++ [Http (CreateComment n c) rs])
      as (Hc1 & Hf1 & Hm1 & Hk1 & rs & Hl1).
    { subst st1. unfold post. destruct (http_post _ _) as [w rs]. simpl.
      repeat split; try done. by exists rs. }
    rewrite Hc, Hf, Hm, Hk. repeat split; try done.
    exists (Http (CreateComment n c) rs :: l). rewrite Hl, Hl1.
    rewrite <- app_assoc.
    split; [done|split; [simpl; by rewrite Hlen|by constructor]].
Qed.

(** ** [_save_issue] *)

(** In dry-run mode the key is cached, whatever the destination. *)
Lemma save_issue_dry (issue : Issue) (cs : list str) (st : state World) :
  _save_issue http_post true issue cs st
  = Some (save_cache (key issue) st, RetTrue).
Proof. reflexivity. Qed.

Lemma save_issue_failed (issue : Issue) (cs : list str) (st : state World) :
  status_code (post http_post (CreateIssue issue) st).2 <> 201%Z ->
  _save_issue http_post false issue cs st
  = Some ((post http_post (CreateIssue issue) st).1, RetFalse).
Proof.
  intros H. unfold _save_issue.
  destruct (post _ _ _) as [st1 rs]; simpl in *.
  by rewrite bool_decide_eq_true_2.
Qed.

Lemma save_issue_created (issue : Issue) (cs : list str) (st : state World) :
  status_code (post http_post (CreateIssue issue) st).2 = 201%Z ->
  _save_issue http_post false issue cs st
  = Some (post_comments http_post
            (number (post http_post (CreateIssue issue) st).2) cs
            (save_cache (key issue)
               (post http_post (CreateIssue issue) st).1),
          RetNone).
Proof.
  intros H. unfold _save_issue.
  destruct (post _ _ _) as [st1 rs]; simpl in *.
  by rewrite bool_decide_eq_false_2 by (by intros ?).
Qed.

(** [_save_issue] never raises. *)
Lemma save_issue_total dry_run (issue : Issue) (cs : list str)
      (st : state World) :
  is_Some (_save_issue http_post dry_run issue cs st).
Proof.
  destruct dry_run; [by rewrite save_issue_dry|].
  destruct (decide (status_code (post http_post (CreateIssue issue) st).2
                    = 201%Z)) as [H|H].
  - by rewrite save_issue_created.
  - by rewrite save_issue_failed.
Qed.

Lemma post_effect (rq : request) (st : state World) :
  let r := post http_post rq st in
  cached_data r.1 = cached_data st /\ file r.1 = file st /\
  Milestones_ r.1 = Milestones_ st /\ cant_migrate r.1 = cant_migrate st /\
  log r.1 = log st ++ [Http rq r.2].
Proof. unfold post. by destruct (http_post _ _). Qed.

(** What a call of [_save_issue] does, by the value it returns. *)
Lemma save_issue_effect dry_run (issue : Issue) (cs : list str)
      (st st' : state World) (r : retval) :
  _save_issue http_post dry_run issue cs st = Some (st', r) ->
  Milestones_ st' = Milestones_ st /\ cant_migrate st' = cant_migrate st /\
  exists l, log st' = log st ++ l /\
    match r with
    | RetFalse =>
        dry_run = false /\ cached_data st' = cached_data st /\
        file st' = file st /\
        exists rs, l = [Http (CreateIssue issue) rs] /\
                   status_code rs <> 201%Z
    | RetTrue =>
        dry_run = true /\ cached_data st' = cached_data st ++ [key issue] /\
        file st' = Pickled (cached_data st') /\ world st' = world st /\
        l = [CacheWrite (cached_data st')]
    | RetNone =>
        dry_run = false /\ cached_data st' = cached_data st ++ [key issue] /\
        file st' = Pickled (cached_data st') /\
        exists rs lc,
          l = Http (CreateIssue issue) rs :: CacheWrite (cached_data st') :: lc
          /\ status_code rs = 201%Z /\ length lc = length cs
          /\ Forall (fun e => is_comment e = true) lc
    end.
Proof.
  destruct dry_run.
  - rewrite save_issue_dry. intros [= <- <-]. simpl.
    repeat split; try done. eexists. split; [done|]. by repeat split.
  - destruct (post_effect (CreateIssue issue) st)
      as (Hc & Hf & Hm & Hk & Hl).
    destruct (decide (status_code (post http_post (CreateIssue issue) st).2
                      = 201%Z)) as [H|H].
    + rewrite save_issue_created by done. intros [= <- <-].
      set (st1 := (post http_post (CreateIssue issue) st).1) in *.
      set (rs := (post http_post (CreateIssue issue) st).2) in *.
      destruct (post_comments_effect (number rs) cs
                  (save_cache (key issue) st1))
        as (Hc2 & Hf2 & Hm2 & Hk2 & lc & Hl2 & Hlen & Hall).
      rewrite Hm2, Hk2, Hc2, Hf2, Hl2. simpl.
      rewrite Hc, Hl. repeat split; try done.
      eexists. split; [by rewrite <- !app_assoc|].
      repeat split; try done. by exists rs, lc.
    + rewrite save_issue_failed by done. intros [= <- <-].
      repeat split; try done. eexists. split; [exact Hl|].
      repeat split; try done. by eexists.
Qed.

(** ** One turn of the loop *)

(** Reading the milestone changes neither the cache nor the destination,
    and leaves the key, title, labels and comments of the issue alone; an
    issue is given up only for a milestone that is mapped to [None]. *)
Lemma resolve_milestone_effect (issue : Issue) (st : state World) :
  forall st1 issue1 ok,
    resolve_milestone issue st = (st1, issue1, ok) ->
    cached_data st1 = cached_data st /\ file st1 = file st /\
    world st1 = world st /\ cant_migrate st1 = cant_migrate st /\
    log st1 = log st /\
    key issue1 = key issue /\ title issue1 = title issue /\
    labels issue1 = labels issue /\ comments issue1 = comments issue /\
    (ok = false ->
     st1 = st /\
     exists name, milestone_name issue = Some name /\
                  Milestones_ st !! name = Some None /\
                  issue1 = set_milestone (Some None) issue).
Proof.
  intros st1 issue1 ok. unfold resolve_milestone, Milestones_get.
  destruct (milestone_name issue) as [name|] eqn:Hname.
  - destruct (Milestones_ st !! name) as [[n|]|] eqn:Hm;
      intros [= <- <- <-]; simpl; repeat split; try done.
    by exists name.
  - intros [= <- <- <-]. by repeat split.
Qed.

(** Reading a milestone can only add a name to ['Milestones']. *)
Lemma resolve_milestone_grows (issue : Issue) (st : state World) :
  forall st1 issue1 ok,
    resolve_milestone issue st = (st1, issue1, ok) ->
    Milestones_ st ⊆ Milestones_ st1.
Proof.
  intros st1 issue1 ok. unfold resolve_milestone, Milestones_get.
  destruct (milestone_name issue) as [name|]; [|by intros [= <- <- <-]].
  destruct (Milestones_ st !! name) as [[n|]|] eqn:Hm;
    intros [= <- <- <-]; simpl; try done.
  by apply insert_subseteq.
Qed.

Variable dry_run : bool.
Variable aliases : gmap str str.

(** Every turn of the loop that does not raise leaves the issue with one
    of the five outcomes. *)
Lemma migrate_issue_outcome (index : nat) (issue issue' : Issue)
      (st st' : state World) :
  migrate_issue http_post dry_run aliases index issue st = Some (st', issue') ->
  exists o l c,
    log st' = log st ++ l /\ cant_migrate st' = cant_migrate st ++ c /\
    outcome_shape dry_run index issue st st' l c o.
Proof.
  unfold migrate_issue. case_bool_decide as Hkey.
  { intros [= <- <-]. exists Skipped, [BarUpdate index], [].
    simpl. by rewrite app_nil_r. }
  destruct (resolve_milestone issue st) as [[st1 issue1] ok] eqn:Hres.
  destruct (resolve_milestone_effect _ _ _ _ _ Hres)
    as (Hc & Hf & Hw & Hk & Hl & Hkey1 & Htitle & Hlabels & Hcs & Hgiven).
  destruct ok.
  2:{ intros [= <- <-]. destruct Hgiven as [-> (name & Hn & Hm & ->)]; [done|].
      exists Unresolved, [], [CantIssue (set_milestone (Some None) issue)].
      simpl. rewrite app_nil_r. repeat split; try done. by exists name. }
  clear Hgiven. unfold submit.
  destruct (comments issue1) as [cs|] eqn:Hcs1; [|done]. simpl.
  destruct (_save_issue _ _ _ _ _) as [[st2 r]|] eqn:Hsave; [|done]. simpl.
  intros [= <- <-].
  destruct (save_issue_effect _ _ _ _ _ _ Hsave) as (Hm2 & Hk2 & l & Hl2 & Hr).
  destruct r; simpl.
  - destruct Hr as (Hdry & Hc2 & Hf2 & rs & -> & Hrs).
    exists Failed, [Http (CreateIssue (set_comments None issue1)) rs;
                    BarUpdate index], [CantTitle (title issue1)].
    simpl.
    rewrite Hl2, Hk2, Hk, Hl, <- app_assoc, Htitle, Hc2, Hf2, Hc, Hf. simpl.
    repeat split; try done.
    exists (set_comments None issue1), rs. by repeat split.
  - destruct Hr as (Hdry & Hc2 & Hf2 & Hw2 & ->).
    exists Recorded, [CacheWrite (cached_data st2); BarUpdate index], [].
    simpl.
    rewrite Hl2, Hk2, Hk, Hl, <- app_assoc, app_nil_r, Hf2, Hw2, Hw. simpl.
    rewrite Hc2. simpl. rewrite Hc, Hkey1. by repeat split.
  - destruct Hr as (Hdry & Hc2 & Hf2 & rs & lc & -> & Hrs & Hlen & Hall).
    exists Migrated,
      (Http (CreateIssue (set_comments None issue1)) rs
         :: CacheWrite (cached_data st2) :: lc ++ [BarUpdate index]), [].
    simpl.
    rewrite Hl2, Hk2, Hk, Hl, <- app_assoc, app_nil_r, Hf2. simpl.
    rewrite Hc2. simpl. rewrite Hc, Hkey1. repeat split; try done.
    exists (set_comments None issue1), rs, lc. repeat split; try done.
    by rewrite <- Hcs, Hlen.
Qed.

(** The outcome computed by [issue_outcome] is the one the turn has. *)
Lemma issue_outcome_shape (index : nat) (issue issue' : Issue)
      (st st' : state World) :
  migrate_issue http_post dry_run aliases index issue st = Some (st', issue') ->
  exists o l c,
    issue_outcome http_post dry_run issue st = Some o /\
    log st' = log st ++ l /\ cant_migrate st' = cant_migrate st ++ c /\
    outcome_shape dry_run index issue st st' l c o.
Proof.
  unfold migrate_issue, issue_outcome. case_bool_decide as Hkey.
  { intros [= <- <-]. exists Skipped, [BarUpdate index], [].
    simpl. by rewrite app_nil_r. }
  destruct (resolve_milestone issue st) as [[st1 issue1] ok] eqn:Hres.
  destruct (resolve_milestone_effect _ _ _ _ _ Hres)
    as (Hc & Hf & Hw & Hk & Hl & Hkey1 & Htitle & Hlabels & Hcs & Hgiven).
  destruct ok.
  2:{ intros [= <- <-]. destruct Hgiven as [-> (name & Hn & Hm & ->)]; [done|].
      exists Unresolved, [], [CantIssue (set_milestone (Some None) issue)].
      simpl. rewrite app_nil_r. repeat split; try done. by exists name. }
  clear Hgiven. unfold submit.
  destruct (comments issue1) as [cs|] eqn:Hcs1; [|done]. simpl.
  destruct (_save_issue _ _ _ _ _) as [[st2 r]|] eqn:Hsave; [|done]. simpl.
  intros [= <- <-].
  destruct (save_issue_effect _ _ _ _ _ _ Hsave) as (Hm2 & Hk2 & l & Hl2 & Hr).
  destruct r; simpl.
  - destruct Hr as (Hdry & Hc2 & Hf2 & rs & -> & Hrs).
    exists Failed, [Http (CreateIssue (set_comments None issue1)) rs;
                    BarUpdate index], [CantTitle (title issue1)].
    simpl.
    rewrite Hl2, Hk2, Hk, Hl, <- app_assoc, Htitle, Hc2, Hf2, Hc, Hf. simpl.
    repeat split; try done.
    exists (set_comments None issue1), rs. by repeat split.
  - destruct Hr as (Hdry & Hc2 & Hf2 & Hw2 & ->).
    exists Recorded, [CacheWrite (cached_data st2); BarUpdate index], [].
    simpl.
    rewrite Hl2, Hk2, Hk, Hl, <- app_assoc, app_nil_r, Hf2, Hw2, Hw. simpl.
    rewrite Hc2. simpl. rewrite Hc, Hkey1. by repeat split.
  - destruct Hr as (Hdry & Hc2 & Hf2 & rs & lc & -> & Hrs & Hlen & Hall).
    exists Migrated,
      (Http (CreateIssue (set_comments None issue1)) rs
         :: CacheWrite (cached_data st2) :: lc ++ [BarUpdate index]), [].
    simpl.
    rewrite Hl2, Hk2, Hk, Hl, <- app_assoc, app_nil_r, Hf2. simpl.
    rewrite Hc2. simpl. rewrite Hc, Hkey1. repeat split; try done.
    exists (set_comments None issue1), rs, lc. repeat split; try done.
    by rewrite <- Hcs, Hlen.
Qed.

(** What the callers below use of the five outcomes. *)
Lemma migrate_issue_summary (index : nat) (issue issue' : Issue)
      (st st' : state World) :
  migrate_issue http_post dry_run aliases index issue st = Some (st', issue') ->
  exists l c ks,
    log st' = log st ++ l /\ cant_migrate st' = cant_migrate st ++ c /\
    cached_data st' = cached_data st ++ ks /\
    (forall k, k ∈ ks ->
       k = key issue /\
       (dry_run = true \/
        exists payload rs, Http (CreateIssue payload) rs ∈ l /\
                           key payload = k /\ status_code rs = 201%Z)) /\
    (forall payload rs, Http (CreateIssue payload) rs ∈ l ->
       dry_run = false /\ key payload = key issue /\
       key issue ∉ cached_data st) /\
    (file st' = file st /\ ks = [] \/ file st' = Pickled (cached_data st')) /\
    (c = [] -> key issue ∈ cached_data st') /\
    (dry_run = true ->
     Forall (fun e => is_http e = false) l /\ forall t, CantTitle t ∉ c).
Proof.
  intros H. apply migrate_issue_outcome in H as (o & l & c & Hl & Hc & Ho).
  exists l, c. destruct o; simpl in Ho.
  - destruct Ho as (Hin & -> & -> & Hcd & Hf & _).
    exists []. split_all.
    + by left.
    + by rewrite Hcd.
    + by repeat constructor.
  - destruct Ho as (Hnin & -> & (name & _ & _ & ->) & Hcd & Hf & _).
    exists []. split_all.
    by left.
  - destruct Ho as (Hnin & Hdry & (payload & rs & Hk & _ & Hrs & ->)
                    & -> & Hcd & Hf).
    exists []. split_all.
    by left.
  - destruct Ho as (Hnin & Hdry & -> & -> & Hcd & Hf & _).
    exists [key issue]. split_all.
    + by left.
    + by right.
    + rewrite Hcd. apply elem_of_app. right. by left.
    + by repeat constructor.
  - destruct Ho as (Hnin & Hdry & (payload & rs & lc & Hk & _ & Hrs & Hall
                                   & _ & ->) & -> & Hcd & Hf).
    rewrite Forall_forall in Hall.
    exists [key issue]. split_all.
    + right. exists payload, rs. split; [by left|done].
    + match goal with H : _ ∈ lc |- _ => by apply Hall in H end.
    + by right.
    + rewrite Hcd. apply elem_of_app. right. by left.
Qed.

(** A turn of the loop keeps the entries of ['Milestones']. *)
Lemma migrate_issue_milestones (index : nat) (issue issue' : Issue)
      (st st' : state World) :
  migrate_issue http_post dry_run aliases index issue st = Some (st', issue') ->
  Milestones_ st ⊆ Milestones_ st'.
Proof.
  unfold migrate_issue. case_bool_decide; [by intros [= <- <-]|].
  destruct (resolve_milestone issue st) as [[st1 issue1] ok] eqn:Hres.
  apply resolve_milestone_grows in Hres.
  destruct ok; [|by intros [= <- <-]].
  unfold submit. destruct (comments issue1) as [cs|]; [|done]. simpl.
  destruct (_save_issue _ _ _ _ _) as [[st2 r]|] eqn:Hsave; [|done]. simpl.
  intros [= <- <-].
  destruct (save_issue_effect _ _ _ _ _ _ Hsave) as (Hm2 & _).
  destruct r; simpl; by rewrite Hm2.
Qed.

(** ** The loop *)

Lemma migrate_loop_cons (index : nat) (issue : Issue) (rest issues' : list Issue)
      (st st' : state World) :
  migrate_loop http_post dry_run aliases index (issue :: rest) st
  = Some (st', issues') ->
  exists st1 issue1 rest',
    migrate_issue http_post dry_run aliases index issue st = Some (st1, issue1)
    /\ migrate_loop http_post dry_run aliases (S index) rest st1
       = Some (st', rest')
    /\ issues' = issue1 :: rest'.
Proof.
  cbn [migrate_loop].
  destruct (migrate_issue _ _ _ _ _ _) as [[st1 issue1]|] eqn:Hstep;
    [|done]. simpl.
  destruct (migrate_loop _ _ _ _ _ _) as [[st2 rest']|] eqn:Hloop;
    [|done]. simpl.
  intros [= <- <-]. by exists st1, issue1, rest'.
Qed.

(** The loop keeps the entries of ['Milestones']: what the resolver has
    recorded for a name is what every turn reads for it. *)
Lemma migrate_loop_milestones (issues issues' : list Issue) (index : nat)
      (st st' : state World) :
  migrate_loop http_post dry_run aliases index issues st = Some (st', issues') ->
  Milestones_ st ⊆ Milestones_ st'.
Proof.
  revert issues' index st.
  induction issues as [|issue rest IH]; intros issues' index st H.
  - by injection H as <- <-.
  - apply migrate_loop_cons in H as (st1 & issue1 & rest' & Hstep & Hloop & ->).
    etrans; [by eapply migrate_issue_milestones|by eapply IH].
Qed.

(** What a run of the loop has done: what it has logged ([l]), what it has
    appended to [cant_migrate] ([c]) and to the cached keys ([ks]). *)
Lemma migrate_loop_summary (issues issues' : list Issue) (index : nat)
      (st st' : state World) :
  migrate_loop http_post dry_run aliases index issues st = Some (st', issues') ->
  exists l c ks,
    log st' = log st ++ l /\ cant_migrate st' = cant_migrate st ++ c /\
    cached_data st' = cached_data st ++ ks /\
    (forall k, k ∈ ks ->
       (exists i, i ∈ issues /\ key i = k) /\
       (dry_run = true \/
        exists payload rs, Http (CreateIssue payload) rs ∈ l /\
                           key payload = k /\ status_code rs = 201%Z)) /\
    (forall payload rs, Http (CreateIssue payload) rs ∈ l ->
       dry_run = false /\ (exists i, i ∈ issues /\ key i = key payload) /\
       key payload ∉ cached_data st) /\
    (file st' = file st /\ ks = [] \/ file st' = Pickled (cached_data st')) /\
    (c = [] -> forall i, i ∈ issues -> key i ∈ cached_data st') /\
    (dry_run = true ->
     Forall (fun e => is_http e = false) l /\ forall t, CantTitle t ∉ c).
Proof.
  revert issues' index st.
  induction issues as [|issue rest IH]; intros issues' index st H.
  - injection H as <- <-. exists [], [], []. split_all. by left.
  - apply migrate_loop_cons in H as (st1 & issue1 & rest' & Hstep & Hloop & ->).
    apply migrate_issue_summary in Hstep
      as (l1 & c1 & ks1 & Hl1 & Hc1 & Hk1 & Hj1 & Hu1 & Hf1 & Ha1 & Hd1).
    apply IH in Hloop
      as (l2 & c2 & ks2 & Hl2 & Hc2 & Hk2 & Hj2 & Hu2 & Hf2 & Ha2 & Hd2).
    exists (l1 ++ l2), (c1 ++ c2), (ks1 ++ ks2).
    rewrite Hl2, Hl1, Hc2, Hc1, Hk2, Hk1, <- !app_assoc.
    split; [done|]. split; [done|]. split; [done|].
    split; [|split; [|split; [|split]]].
    + intros k [Hk|Hk]%elem_of_app.
      * destruct (Hj1 _ Hk) as [-> Hwhy]. split.
        { exists issue. split; [by left|done]. }
        destruct Hwhy as [?|(payload & rs & Hin & ? & ?)]; [by left|].
        right. exists payload, rs. split; [|done].
        apply elem_of_app. by left.
      * destruct (Hj2 _ Hk) as [(i & Hi & <-) Hwhy]. split.
        { exists i. split; [by right|done]. }
        destruct Hwhy as [?|(payload & rs & Hin & ? & ?)]; [by left|].
        right. exists payload, rs. split; [|done].
        apply elem_of_app. by right.
    + intros payload rs [Hin|Hin]%elem_of_app.
      * destruct (Hu1 _ _ Hin) as (? & Hkey & ?).
        split; [done|]. split; [|by rewrite Hkey].
        exists issue. split; [by left|done].
      * destruct (Hu2 _ _ Hin) as (? & (i & Hi & Hkey) & Hnin).
        split; [done|]. split.
        { exists i. split; [by right|done]. }
        intros Hc. apply Hnin. rewrite Hk1. apply elem_of_app. by left.
    + destruct Hf2 as [[Hf2 ->]|Hf2].
      * rewrite app_nil_r. rewrite Hf2.
        destruct Hf1 as [[Hf1 ->]|Hf1]; [by left|].
        right. by rewrite Hf1, Hk1.
      * right. by rewrite Hf2, Hk2, Hk1, <- app_assoc.
    + intros [-> ->]%app_eq_nil i [->|Hi]%elem_of_cons.
      * specialize (Ha1 eq_refl). rewrite app_assoc, <- Hk1.
        apply elem_of_app. by left.
      * specialize (Ha2 eq_refl i Hi). by rewrite Hk2, Hk1, <- app_assoc in Ha2.
    + intros Hdry. destruct (Hd1 Hdry) as [Hh1 Ht1].
      destruct (Hd2 Hdry) as [Hh2 Ht2]. split.
      * by apply Forall_app.
      * intros t [Ht|Ht]%elem_of_app; [by apply (Ht1 t)|by apply (Ht2 t)].
Qed.

End MigrationFacts.

(** ** The driver never raises on extracted issues *)

Lemma migrate_issue_total {World : Type}
      (http_post : World -> request -> World * response) (dry_run : bool)
      (aliases : gmap str str) (index : nat) (issue : Issue) (st : state World) :
  is_Some (comments issue) ->
  is_Some (migrate_issue http_post dry_run aliases index issue st).
Proof.
  intros [cs Hcs]. unfold migrate_issue. case_bool_decide; [done|].
  destruct (resolve_milestone issue st) as [[st1 issue1] ok] eqn:Hres.
  destruct (resolve_milestone_effect _ _ _ _ _ Hres)
    as (_ & _ & _ & _ & _ & _ & _ & _ & Hcs1 & _).
  destruct ok; [|done]. unfold submit. rewrite Hcs1, Hcs. simpl.
  destruct (save_issue_total http_post dry_run (set_comments None issue1) cs st1)
    as [[st2 r] ->].
  done.
Qed.

Lemma migrate_loop_total {World : Type}
      (http_post : World -> request -> World * response) (dry_run : bool)
      (aliases : gmap str str) (issues : list Issue) (index : nat)
      (st : state World) :
  Forall (fun i => is_Some (comments i)) issues ->
  is_Some (migrate_loop http_post dry_run aliases index issues st).
Proof.
  intros Hall. revert index st.
  induction Hall as [|issue rest Hc _ IH]; intros index st; [done|].
  cbn [migrate_loop].
  destruct (migrate_issue_total http_post dry_run aliases index issue st Hc)
    as [[st1 issue1] ->].
  simpl. destruct (IH (S index) st1) as [[st2 rest'] ->]. done.
Qed.

(** [migrate] returns on every project whose issues have their comments,
    as all extracted issues do. *)
Lemma migrate_total {World : Type}
      (http_post : World -> request -> World * response) (dry_run : bool)
      (aliases : gmap str str) (p : Project) (st : state World) :
  Forall (fun i => is_Some (comments i)) (Issues p) ->
  is_Some (migrate http_post dry_run aliases p st).
Proof.
  intros Hall. unfold migrate.
  edestruct (migrate_loop_total http_post dry_run aliases (Issues p) 0)
    as [[st1 issues'] ->]; [done|].
  done.
Qed.

(** [migrate] is its loop, started with an empty [cant_migrate] and the
    milestones of the project, and followed by a last progress update. *)
Lemma migrate_unfold {World : Type}
      (http_post : World -> request -> World * response) (dry_run : bool)
      (aliases : gmap str str) (p : Project) (st st' : state World)
      (issues' : list Issue) :
  migrate http_post dry_run aliases p st = Some (st', issues') ->
  exists st1,
    migrate_loop http_post dry_run aliases 0 (Issues p)
      (mkState World (cached_data st) (file st) (world st) (Milestones p) []
               (log st))
    = Some (st1, issues')
    /\ st' = bar_update (length (Issues p)) st1.
Proof.
  unfold migrate.
  destruct (migrate_loop _ _ _ _ _ _) as [[st1 is1]|] eqn:Hloop; [|done].
  simpl. intros [= <- <-]. by exists st1.
Qed.

(* ===================================================================== *)
(** * The claims about the migration driver *)
(* ===================================================================== *)

(** C4.  When the creation request of an issue (not in dry-run mode) is
    answered with a status other than 201, the title of the issue is
    appended to [cant_migrate], the cached keys and the cache file are left
    as they were, and no comment request is made: the turn of the loop logs
    the creation request and the progress update, nothing else. *)
Theorem failed_creation_leaves_cache {World : Type}
        (http_post : World -> request -> World * response)
        (aliases : gmap str str) (index : nat) (issue issue1 : Issue)
        (cs : list str) (st st1 : state World) :
  key issue ∉ cached_data st ->
  resolve_milestone issue st = (st1, issue1, true) ->
  comments issue = Some cs ->
  status_code
    (http_post (world st) (CreateIssue (set_comments None issue1))).2 <> 201%Z ->
  exists st',
    migrate_issue http_post false aliases index issue st
    = Some (st', set_comments None issue1)
    /\ cant_migrate st' = cant_migrate st ++ [CantTitle (title issue)]
    /\ cached_data st' = cached_data st
    /\ file st' = file st
    /\ log st' = log st ++
         [Http (CreateIssue (set_comments None issue1))
               (http_post (world st) (CreateIssue (set_comments None issue1))).2;
          BarUpdate index].
Proof.
  intros Hkey Hres Hcs Hstatus.
  destruct (resolve_milestone_effect _ _ _ _ _ Hres)
    as (Hc & Hf & Hw & Hk & Hl & Hkey1 & Htitle & Hlabels & Hcs1 & _).
  unfold migrate_issue. rewrite bool_decide_eq_false_2 by done.
  rewrite Hres. unfold submit. rewrite Hcs1, Hcs. simpl.
  assert ((post http_post (CreateIssue (set_comments None issue1)) st1).2
          = (http_post (world st) (CreateIssue (set_comments None issue1))).2)
    as Hrs.
  { unfold post. rewrite Hw. by destruct (http_post _ _). }
  rewrite save_issue_failed by (by rewrite Hrs).
  simpl. eexists. split; [done|].
  destruct (post_effect http_post (CreateIssue (set_comments None issue1)) st1)
    as (Hc2 & Hf2 & _ & Hk2 & Hl2).
  simpl. rewrite Hk2, Hk, Htitle, Hc2, Hc, Hf2, Hf, Hl2, Hl, Hrs, <- app_assoc.
  done.
Qed.

(** C5 (what the code does instead).  An issue given up for an unresolved milestone
    leaves the loop by the [continue] of line 231: the turn logs nothing,
    so no progress update is issued for it. *)
Theorem unresolved_milestone_no_progress {World : Type}
        (http_post : World -> request -> World * response) (dry_run : bool)
        (aliases : gmap str str) (index : nat) (issue : Issue) (name : str)
        (st : state World) :
  key issue ∉ cached_data st ->
  milestone_name issue = Some name ->
  Milestones_ st !! name = Some None ->
  exists st' issue',
    migrate_issue http_post dry_run aliases index issue st = Some (st', issue')
    /\ log st' = log st.
Proof.
  intros Hkey Hname Hm. unfold migrate_issue.
  rewrite bool_decide_eq_false_2 by done.
  unfold resolve_milestone, Milestones_get. rewrite Hname, Hm.
  by eexists _, _.
Qed.

(** After an issue that is skipped, refused, recorded or created, the last
    thing logged is the progress update of its index. *)
Lemma progress_after_issue {World : Type}
      (http_post : World -> request -> World * response) (dry_run : bool)
      (aliases : gmap str str) (index : nat) (issue issue' : Issue)
      (st st' : state World) :
  migrate_issue http_post dry_run aliases index issue st = Some (st', issue') ->
  (key issue ∈ cached_data st \/
   forall name, milestone_name issue = Some name ->
                Milestones_ st !! name <> Some None) ->
  exists l, log st' = log st ++ l ++ [BarUpdate index].
Proof.
  intros H Hwhy.
  apply migrate_issue_outcome in H as (o & l & c & Hl & _ & Ho).
  rewrite Hl. destruct o; simpl in Ho.
  - destruct Ho as (_ & -> & _). by exists [].
  - destruct Ho as (Hnin & _ & (name & Hn & Hm & _) & _).
    destruct Hwhy as [?|Hwhy]; [done|]. by destruct (Hwhy name Hn).
  - destruct Ho as (_ & _ & (payload & rs & _ & _ & _ & ->) & _).
    by exists [Http (CreateIssue payload) rs].
  - destruct Ho as (_ & _ & -> & _). by exists [CacheWrite (cached_data st')].
  - destruct Ho as (_ & _ & (payload & rs & lc & _ & _ & _ & _ & _ & ->) & _).
    by exists (Http (CreateIssue payload) rs :: CacheWrite (cached_data st') :: lc).
Qed.

(** The last thing [migrate] logs is the progress update with the number of
    issues. *)
Lemma final_progress_update {World : Type}
      (http_post : World -> request -> World * response) (dry_run : bool)
      (aliases : gmap str str) (p : Project) (st st' : state World)
      (issues' : list Issue) :
  migrate http_post dry_run aliases p st = Some (st', issues') ->
  last (log st') = Some (BarUpdate (length (Issues p))).
Proof.
  intros (st1 & _ & ->)%migrate_unfold. simpl. apply last_snoc.
Qed.

(** The cache file after a run is the one found at the start, with the
    cached keys unchanged, or it holds exactly the cached keys. *)
Lemma file_after_run {World : Type}
      (http_post : World -> request -> World * response) (dry_run : bool)
      (aliases : gmap str str) (p : Project) (st st' : state World)
      (issues' : list Issue) :
  migrate http_post dry_run aliases p st = Some (st', issues') ->
  file st' = file st /\ cached_data st' = cached_data st \/
  file st' = Pickled (cached_data st').
Proof.
  intros (st1 & Hloop & ->)%migrate_unfold.
  apply migrate_loop_summary in Hloop
    as (l & c & ks & _ & _ & Hk & _ & _ & Hf & _).
  simpl in *. destruct Hf as [[Hf ->]|Hf].
  - left. by rewrite app_nil_r in Hk.
  - by right.
Qed.

(** The cached keys after a run of the loop are those before it followed
    by the keys of the issues with a success outcome; a dry run alone
    records, and an issue is migrated only by a creation answered 201. *)
Lemma migrate_loop_outcomes {World : Type}
      (http_post : World -> request -> World * response) (dry_run : bool)
      (aliases : gmap str str) (issues issues' : list Issue) (index : nat)
      (st st' : state World) :
  migrate_loop http_post dry_run aliases index issues st = Some (st', issues') ->
  exists os l,
    loop_outcomes http_post dry_run aliases index issues st = Some os
    /\ length os = length issues
    /\ log st' = log st ++ l
    /\ cached_data st' = cached_data st ++ saved_keys issues os
    /\ (forall n, os !! n = Some Recorded -> dry_run = true)
    /\ (forall n i, issues !! n = Some i -> os !! n = Some Migrated ->
          exists payload rs,
            Http (CreateIssue payload) rs ∈ l /\ key payload = key i /\
            status_code rs = 201%Z).
Proof.
  revert issues' index st.
  induction issues as [|issue rest IH]; intros issues' index st H.
  - injection H as <- <-. exists [], []. rewrite !app_nil_r.
    split_and!; try done.
  - pose proof H as Hcons.
    apply migrate_loop_cons in Hcons
      as (st1 & issue1 & rest' & Hstep & Hloop & ->).
    destruct (issue_outcome_shape _ _ _ _ _ _ _ _ Hstep)
      as (o & l1 & c1 & Ho & Hl1 & _ & Hshape).
    destruct (IH _ _ _ Hloop) as (os & l2 & Hos & Hlen & Hl2 & Hk2 & Hrec & Hmig).
    exists (o :: os), (l1 ++ l2).
    assert (cached_data st1
            = cached_data st ++ (if is_success o then [key issue] else []))
      as Hk1.
    { destruct o; simpl in Hshape; simpl.
      - destruct Hshape as (_ & _ & _ & -> & _). by rewrite app_nil_r.
      - destruct Hshape as (_ & _ & _ & -> & _). by rewrite app_nil_r.
      - destruct Hshape as (_ & _ & _ & _ & -> & _). by rewrite app_nil_r.
      - by destruct Hshape as (_ & _ & _ & _ & -> & _).
      - by destruct Hshape as (_ & _ & _ & _ & -> & _). }
    split_and!.
    + cbn [loop_outcomes]. rewrite Ho. cbn [mbind option_bind].
      rewrite Hstep. cbn [mbind option_bind]. by rewrite Hos.
    + simpl. by rewrite Hlen.
    + by rewrite Hl2, Hl1, <- app_assoc.
    + rewrite Hk2, Hk1, <- app_assoc. cbn [saved_keys].
      by destruct (is_success o).
    + intros [|n]; simpl; [|by apply Hrec].
      intros [= ->]. simpl in Hshape. by destruct Hshape as (_ & -> & _).
    + intros [|n] i; simpl.
      * intros [= <-] [= ->]. simpl in Hshape.
        destruct Hshape as (_ & _ & (payload & rs & lc & Hkey & _ & Hrs & _ & _ & ->)
                            & _).
        exists payload, rs. split; [|done]. apply elem_of_app. left. by left.
      * intros Hi Hn. destruct (Hmig n i Hi Hn) as (payload & rs & Hin & Hrest).
        exists payload, rs. split; [|done]. apply elem_of_app. by right.
Qed.

(** A saved key is the key of an issue with a success outcome. *)
Lemma saved_keys_elem (issues : list Issue) (os : list outcome) (k : str) :
  k ∈ saved_keys issues os ->
  exists n i o,
    issues !! n = Some i /\ os !! n = Some o /\ is_success o = true /\
    key i = k.
Proof.
  revert os; induction issues as [|issue rest IH]; intros [|o os]; simpl;
    try (intros H; by apply elem_of_nil in H).
  destruct (is_success o) eqn:Ho.
  - intros [->|Hin]%elem_of_cons.
    + by exists 0%nat, issue, o.
    + destruct (IH os Hin) as (n & i & o' & ? & ? & ? & ?).
      by exists (S n), i, o'.
  - intros Hin. destruct (IH os Hin) as (n & i & o' & ? & ? & ? & ?).
    by exists (S n), i, o'.
Qed.

(** C8.  A run of [migrate] appends to the cached keys exactly the keys of
    the issues for which [_save_issue] has returned a success outcome, in
    order: [True], which only a dry run returns, or the end of the
    function after a creation answered with 201.  An issue that is
    skipped, given up for its milestone or refused adds nothing.  So every
    cached key was cached before the run or is the key of an issue of the
    project with a success outcome.  The cache file is the one found at
    the start or holds exactly the cached keys. *)
Theorem cache_holds_only_successes {World : Type}
        (http_post : World -> request -> World * response) (dry_run : bool)
        (aliases : gmap str str) (p : Project) (st st' : state World)
        (issues' : list Issue) :
  migrate http_post dry_run aliases p st = Some (st', issues') ->
  exists os l,
    migrate_outcomes http_post dry_run aliases p st = Some os
    /\ length os = length (Issues p)
    /\ log st' = log st ++ l
    /\ cached_data st' = cached_data st ++ saved_keys (Issues p) os
    /\ (forall k, k ∈ cached_data st' ->
          k ∈ cached_data st \/
          exists n i,
            Issues p !! n = Some i /\ key i = k /\
            (os !! n = Some Recorded /\ dry_run = true \/
             os !! n = Some Migrated /\
             exists payload rs,
               Http (CreateIssue payload) rs ∈ l /\ key payload = k /\
               status_code rs = 201%Z))
    /\ (file st' = file st /\ cached_data st' = cached_data st \/
        file st' = Pickled (cached_data st')).
Proof.
  intros Hrun. pose proof (file_after_run _ _ _ _ _ _ _ Hrun) as Hfile.
  apply migrate_unfold in Hrun as (st1 & Hloop & ->).
  apply migrate_loop_outcomes in Hloop
    as (os & l & Hos & Hlen & Hl & Hk & Hrec & Hmig).
  simpl in *. exists os, (l ++ [BarUpdate (length (Issues p))]).
  split_and!; [done|done|by rewrite Hl, <- app_assoc|done| |done].
  intros k. rewrite Hk. intros [Hin|Hin]%elem_of_app; [by left|right].
  apply saved_keys_elem in Hin as (n & i & o & Hi & Ho & Hsucc & Hkey).
  exists n, i. split; [done|]. split; [done|].
  destruct o; try done.
  - left. split; [done|]. by apply (Hrec n).
  - right. split; [done|].
    destruct (Hmig n i Hi Ho) as (payload & rs & Hin & Hpk & Hrs).
    exists payload, rs. split; [apply elem_of_app; by left|].
    split; [congruence|done].
Qed.

(** The milestone resolver maps a name of the project to [None] exactly
    when no milestone of the listing has that title. *)
Lemma milestones_lookup (titles : list str) (p : Project) (name : str) :
  Milestones (milestones titles p) !! name
  = (fun v => if bool_decide (name ∈ titles) then v else None)
      <$> Milestones p !! name.
Proof.
  unfold milestones. simpl. rewrite map_lookup_imap.
  by destruct (Milestones p !! name).
Qed.

(** C9.  An issue that is not cached and whose milestone name the resolver
    has mapped to [None] (a name of the project that is the title of no
    destination milestone) is appended to [cant_migrate]; nothing is logged
    for it, so no creation request is made; and the loop goes on with the
    remaining issues.  The state is any state of the loop: one whose
    ['Milestones'] holds what the resolver has recorded. *)
Theorem unresolved_milestone_diverted {World : Type}
        (http_post : World -> request -> World * response) (dry_run : bool)
        (aliases : gmap str str) (titles : list str) (p : Project)
        (index : nat) (issue : Issue) (rest : list Issue) (name : str)
        (st : state World) :
  key issue ∉ cached_data st ->
  milestone_name issue = Some name ->
  is_Some (Milestones p !! name) ->
  name ∉ titles ->
  Milestones (milestones titles p) ⊆ Milestones_ st ->
  let issue' := set_milestone (Some None) issue in
  let st' := cant_append (CantIssue issue') st in
  migrate_issue http_post dry_run aliases index issue st = Some (st', issue')
  /\ cant_migrate st' = cant_migrate st ++ [CantIssue issue']
  /\ log st' = log st
  /\ cached_data st' = cached_data st
  /\ migrate_loop http_post dry_run aliases index (issue :: rest) st
     = '(st2, rest') ← migrate_loop http_post dry_run aliases (S index) rest st';
       Some (st2, issue' :: rest').
Proof.
  intros Hkey Hname [v Hv] Hnew Hms issue' st'.
  assert (Milestones_ st !! name = Some None) as Hm.
  { eapply lookup_weaken; [|exact Hms].
    rewrite milestones_lookup, Hv. simpl.
    by rewrite bool_decide_eq_false_2. }
  assert (migrate_issue http_post dry_run aliases index issue st
          = Some (st', issue')) as Hstep.
  { unfold migrate_issue. rewrite bool_decide_eq_false_2 by done.
    unfold resolve_milestone, Milestones_get. by rewrite Hname, Hm. }
  repeat split; try done.
  cbn [migrate_loop]. by rewrite Hstep.
Qed.

(** C10.  In dry-run mode [_save_issue] makes no request: it appends the
    key to the cached keys, rewrites the cache file and returns [True]; the
    only thing it logs is the cache write.  A run of [migrate] in dry-run
    mode therefore logs no request at all and puts no title in
    [cant_migrate]. *)
Theorem dry_run_saves_without_requests {World : Type}
        (http_post : World -> request -> World * response)
        (aliases : gmap str str) (issue : Issue) (cs : list str)
        (p : Project) (st st2 : state World) (issues2 : list Issue) :
  migrate http_post true aliases p st = Some (st2, issues2) ->
  (exists st',
      _save_issue http_post true issue cs st = Some (st', RetTrue)
      /\ cached_data st' = cached_data st ++ [key issue]
      /\ file st' = Pickled (cached_data st ++ [key issue])
      /\ world st' = world st
      /\ log st' = log st ++ [CacheWrite (cached_data st ++ [key issue])])
  /\ (exists l, log st2 = log st ++ l
                /\ Forall (fun e => is_http e = false) l)
  /\ (forall t, CantTitle t ∉ cant_migrate st2).
Proof.
  intros (st1 & Hloop & ->)%migrate_unfold. split.
  { eexists. by rewrite save_issue_dry. }
  apply migrate_loop_summary in Hloop
    as (l & c & ks & Hl & Hc & _ & _ & _ & _ & _ & Hdry).
  destruct (Hdry eq_refl) as [Hnone Hcant]. simpl in *. split.
  - exists (l ++ [BarUpdate (length (Issues p))]).
    rewrite Hl, <- app_assoc. split; [done|].
    apply Forall_app. split; [done|]. by repeat constructor.
  - intros t. rewrite Hc. apply Hcant.
Qed.

(** The payload of every creation request carries the labels of the issue
    as extracted: the list built by the alias loop is never put on the
    issue. *)
Lemma submitted_labels_unchanged {World : Type}
        (http_post : World -> request -> World * response) (dry_run : bool)
        (aliases : gmap str str) (index : nat) (issue issue' : Issue)
        (st st' : state World) :
  migrate_issue http_post dry_run aliases index issue st = Some (st', issue') ->
  exists l, log st' = log st ++ l /\
    forall payload rs, Http (CreateIssue payload) rs ∈ l ->
                       labels payload = labels issue.
Proof.
  intros H. apply migrate_issue_outcome in H as (o & l & c & Hl & _ & Ho).
  exists l. split; [done|]. intros payload rs Hin.
  destruct o; simpl in Ho.
  - destruct Ho as (_ & -> & _). by inv_elem.
  - destruct Ho as (_ & -> & _). by inv_elem.
  - destruct Ho as (_ & _ & (payload' & rs' & _ & Hlab & _ & ->) & _).
    inv_elem; by simplify_eq.
  - destruct Ho as (_ & _ & -> & _). by inv_elem.
  - destruct Ho as (_ & _ & (payload' & rs' & lc & _ & Hlab & _ & Hall & _ & ->)
                    & _).
    rewrite Forall_forall in Hall. inv_elem; simplify_eq; try done.
    by apply Hall in Hin.
Qed.

(** ** Two runs on the same cache file *)

(** A log without creation request counts no creation call. *)
Lemma creation_calls_none (l : list event) :
  Forall (fun e => is_creation e = false) l -> creation_calls l = 0%nat.
Proof.
  unfold creation_calls. induction 1 as [|e l He _ IH]; [done|].
  rewrite filter_cons_False; [done|]. by rewrite He.
Qed.

(** When every key is cached, the loop skips every issue: it only logs the
    progress updates. *)
Lemma migrate_loop_skips {World : Type}
      (http_post : World -> request -> World * response) (dry_run : bool)
      (aliases : gmap str str) (issues : list Issue) (index : nat)
      (st : state World) :
  (forall i, i ∈ issues -> key i ∈ cached_data st) ->
  exists st',
    migrate_loop http_post dry_run aliases index issues st = Some (st', issues)
    /\ cached_data st' = cached_data st
    /\ exists l, log st' = log st ++ l
                 /\ Forall (fun e => is_creation e = false) l.
Proof.
  revert index st. induction issues as [|issue rest IH]; intros index st Hall.
  - exists st. repeat split; try done. exists []. by rewrite app_nil_r.
  - cbn [migrate_loop]. unfold migrate_issue.
    rewrite bool_decide_eq_true_2 by (apply Hall; by left). simpl.
    destruct (IH (S index) (bar_update index st))
      as (st' & -> & Hc & l & Hl & Hnone).
    { intros i Hi. simpl. apply Hall. by right. }
    exists st'. simpl. repeat split; try done.
    exists (BarUpdate index :: l). rewrite Hl. simpl.
    rewrite <- app_assoc. split; [done|]. by constructor.
Qed.

(** A run leaves the cached keys and the cache file in step. *)
Lemma migrate_synced {World : Type}
      (http_post : World -> request -> World * response) (dry_run : bool)
      (aliases : gmap str str) (p : Project) (st st' : state World)
      (issues' : list Issue) :
  synced st ->
  migrate http_post dry_run aliases p st = Some (st', issues') ->
  synced st'.
Proof.
  intros Hs H. apply file_after_run in H.
  unfold synced in *. destruct H as [[Hf Hc] | Hf]; rewrite Hf; [by rewrite Hc|done].
Qed.

(** C3 (amended).  A second run, a new process on the cache file the first
    run has left and on the same issues, sends no creation request for an
    issue whose key the first run has left in the cache; and when the first
    run has left [cant_migrate] empty, the second run skips every issue and
    makes no creation call at all. *)
Theorem second_run_skips_cached {World : Type}
        (http_post : World -> request -> World * response)
        (dry_run dry_run2 : bool) (aliases aliases2 : gmap str str)
        (p p2 : Project) (st st1 : state World) (issues1 : list Issue) :
  synced st ->
  migrate http_post dry_run aliases p st = Some (st1, issues1) ->
  Issues p2 = Issues p ->
  (forall st2 issues2,
      migrate http_post dry_run2 aliases2 p2 (restart st1) = Some (st2, issues2) ->
      forall payload rs,
        Http (CreateIssue payload) rs ∈ log st2 ->
        key payload ∉ cached_data st1)
  /\ (cant_migrate st1 = [] ->
      exists st2,
        migrate http_post dry_run2 aliases2 p2 (restart st1)
        = Some (st2, Issues p2)
        /\ creation_calls (log st2) = 0%nat).
Proof.
  intros Hsync Hrun1 Hsame.
  assert (cached_data (restart st1) = cached_data st1) as Hload.
  { symmetry. exact (migrate_synced _ _ _ _ _ _ _ Hsync Hrun1). }
  split.
  - intros st2 issues2 (st3 & Hloop & ->)%migrate_unfold payload rs Hin.
    apply migrate_loop_summary in Hloop
      as (l & _ & _ & Hl & _ & _ & _ & Hu & _).
    simpl in Hl, Hin, Hu. rewrite Hl in Hin.
    apply elem_of_app in Hin as [Hin|Hin]; [|by inv_elem].
    destruct (Hu _ _ Hin) as (_ & _ & Hnin).
    by rewrite <- Hload.
  - intros Hcant.
    apply migrate_unfold in Hrun1 as (st0 & Hloop & ->).
    apply migrate_loop_summary in Hloop
      as (l & c & ks & _ & Hc & _ & _ & _ & _ & Hall & _).
    simpl in Hcant, Hc, Hload. rewrite Hcant in Hc. symmetry in Hc.
    specialize (Hall Hc).
    unfold migrate. rewrite Hsame.
    edestruct (migrate_loop_skips http_post dry_run2 aliases2 (Issues p) 0)
      as (st2 & -> & _ & l2 & Hl2 & Hnone).
    { intros i Hi. simpl. rewrite Hload. simpl. by apply Hall. }
    simpl. eexists. split; [done|]. simpl. rewrite Hl2. simpl.
    apply creation_calls_none. apply Forall_app. split; [done|].
    by repeat constructor.
Qed.

(* ===================================================================== *)
(** * The claims on sample runs *)
(* ===================================================================== *)

Lemma htmlentitydecode_refines_witness :
  decoded_spec Sample.entities
    (Some (py "a &amp; b &foo; &lt;        c         d"))
    (py "a & b &foo; <c d").
Proof.
  apply (htmlentitydecode_refines Sample.entities); reflexivity.
Defined.

Lemma failed_creation_leaves_cache_witness :
  exists st',
    migrate_issue (Sample.server 500) false Sample.aliases 0 Sample.labelled
                  Sample.start
    = Some (st', set_comments None Sample.labelled)
    /\ cant_migrate st' = [CantTitle (py "A title")]
    /\ cached_data st' = []
    /\ file st' = NoFile
    /\ log st' = [Http (CreateIssue (set_comments None Sample.labelled))
                       (mkResponse 500 7);
                  BarUpdate 0].
Proof.
  apply (failed_creation_leaves_cache (Sample.server 500) Sample.aliases 0
           Sample.labelled Sample.labelled [py "a comment"]
           Sample.start Sample.start).
  - apply not_elem_of_nil.
  - reflexivity.
  - reflexivity.
  - simpl. lia.
Defined.

Lemma unresolved_milestone_no_progress_witness :
  exists st' issue',
    migrate_issue (Sample.server 201) false Sample.aliases 1 Sample.planned
                  Sample.resolved
    = Some (st', issue')
    /\ log st' = [].
Proof.
  apply (unresolved_milestone_no_progress (Sample.server 201) false
           Sample.aliases 1 Sample.planned (py "1.0") Sample.resolved).
  - apply not_elem_of_nil.
  - reflexivity.
  - vm_compute. reflexivity.
Defined.

Lemma cache_holds_only_successes_witness :
  exists st' issues',
    migrate (Sample.server 201) true Sample.aliases Sample.resolved_project
            Sample.start
    = Some (st', issues')
    /\ migrate_outcomes (Sample.server 201) true Sample.aliases
                        Sample.resolved_project Sample.start
       = Some [Recorded; Unresolved]
    /\ cached_data st' = [py "K-1"]
    /\ exists os l,
      migrate_outcomes (Sample.server 201) true Sample.aliases
                       Sample.resolved_project Sample.start = Some os
      /\ length os = length (Issues Sample.resolved_project)
      /\ log st' = log Sample.start ++ l
      /\ cached_data st'
         = cached_data Sample.start
             ++ saved_keys (Issues Sample.resolved_project) os
      /\ (forall k, k ∈ cached_data st' ->
            k ∈ cached_data Sample.start \/
            exists n i,
              Issues Sample.resolved_project !! n = Some i /\ key i = k /\
              (os !! n = Some Recorded /\ true = true \/
               os !! n = Some Migrated /\
               exists payload rs,
                 Http (CreateIssue payload) rs ∈ l /\ key payload = k /\
                 status_code rs = 201%Z))
      /\ (file st' = file Sample.start
          /\ cached_data st' = cached_data Sample.start
          \/ file st' = Pickled (cached_data st')).
Proof.
  eexists _, _. split; [vm_compute; reflexivity|].
  split; [vm_compute; reflexivity|].
  split; [vm_compute; reflexivity|].
  refine (cache_holds_only_successes (Sample.server 201) true Sample.aliases
            Sample.resolved_project Sample.start _ _ _).
  vm_compute. reflexivity.
Defined.

Lemma unresolved_milestone_diverted_witness :
  let issue' := set_milestone (Some None) Sample.planned in
  let st' := cant_append (CantIssue issue') Sample.resolved in
  migrate_issue (Sample.server 201) false Sample.aliases 1 Sample.planned
                Sample.resolved
  = Some (st', issue')
  /\ cant_migrate st' = cant_migrate Sample.resolved ++ [CantIssue issue']
  /\ log st' = log Sample.resolved
  /\ cached_data st' = cached_data Sample.resolved
  /\ migrate_loop (Sample.server 201) false Sample.aliases 1
       [Sample.planned; Sample.labelled] Sample.resolved
     = '(st2, rest') ← migrate_loop (Sample.server 201) false Sample.aliases 2
                         [Sample.labelled] st';
       Some (st2, issue' :: rest').
Proof.
  apply (unresolved_milestone_diverted (Sample.server 201) false Sample.aliases
           Sample.titles Sample.project 1 Sample.planned [Sample.labelled]
           (py "1.0") Sample.resolved).
  - apply not_elem_of_nil.
  - reflexivity.
  - vm_compute. eexists. reflexivity.
  - intros H%list_elem_of_singleton. vm_compute in H. discriminate H.
  - reflexivity.
Defined.

Lemma dry_run_saves_without_requests_witness :
  exists st2 issues2,
    migrate (Sample.server 500) true Sample.aliases Sample.resolved_project
            Sample.start
    = Some (st2, issues2)
    /\ (exists st',
           _save_issue (Sample.server 500) true Sample.labelled
                       [py "a comment"] Sample.start
           = Some (st', RetTrue)
           /\ cached_data st' = cached_data Sample.start ++ [key Sample.labelled]
           /\ file st'
              = Pickled (cached_data Sample.start ++ [key Sample.labelled])
           /\ world st' = world Sample.start
           /\ log st'
              = log Sample.start
                ++ [CacheWrite (cached_data Sample.start
                                ++ [key Sample.labelled])])
    /\ (exists l, log st2 = log Sample.start ++ l
                  /\ Forall (fun e => is_http e = false) l)
    /\ (forall t, CantTitle t ∉ cant_migrate st2).
Proof.
  eexists _, _. split; [vm_compute; reflexivity|].
  refine (dry_run_saves_without_requests (Sample.server 500) Sample.aliases
            Sample.labelled [py "a comment"] Sample.resolved_project
            Sample.start _ _ _).
  vm_compute. reflexivity.
Defined.

Lemma submitted_labels_unchanged_witness :
  exists st' issue',
    migrate_issue (Sample.server 201) false Sample.aliases 0 Sample.labelled
                  Sample.start
    = Some (st', issue')
    /\ exists l, log st' = log Sample.start ++ l /\
         forall payload rs, Http (CreateIssue payload) rs ∈ l ->
                            labels payload = labels Sample.labelled.
Proof.
  eexists _, _. split; [vm_compute; reflexivity|].
  refine (submitted_labels_unchanged (Sample.server 201) false Sample.aliases 0
            Sample.labelled _ Sample.start _ _).
  vm_compute. reflexivity.
Defined.

(** On the run of the sample project the issue of index 1, given up for
    its milestone, gets no progress update: the updates are those of index
    0 and the last one. *)
Example progress_updates_sample :
  exists st' issues',
    migrate (Sample.server 201) false Sample.aliases Sample.resolved_project
            Sample.start
    = Some (st', issues')
    /\ progress_updates (log st') = [0; 2]%nat
    /\ cant_migrate st'
       = [CantIssue (set_milestone (Some None) Sample.planned)].
Proof.
  eexists _, _. split; [vm_compute; reflexivity|].
  split; vm_compute; reflexivity.
Qed.

(** C1 (failing input).  With the alias mapping of the specification's
    example the alias loop builds the list without "bug" and with
    "enhancement", but the creation request still carries the labels "bug",
    "feature" and "other". *)
Lemma alias_result_not_submitted :
  alias_result Sample.aliases (labels Sample.labelled)
  = [py "enhancement"; py "feature"; py "other"]
  /\ exists st' issue' payload,
      migrate_issue (Sample.server 201) false Sample.aliases 0 Sample.labelled
                    Sample.start
      = Some (st', issue')
      /\ log st' = [Http (CreateIssue payload) (mkResponse 201 7);
                    CacheWrite [py "K-1"];
                    Http (CreateComment 7 (py "a comment")) (mkResponse 201 7);
                    BarUpdate 0]
      /\ labels payload = [py "bug"; py "feature"; py "other"].
Proof.
  split; [vm_compute; reflexivity|].
  eexists _, _, _. split; [vm_compute; reflexivity|].
  split; vm_compute; reflexivity.
Qed.

(** C3 (counterexample).  The destination refuses the creation of the issue
    in the first run, so its key is not cached; the second run, on the same
    cache file and the same project, sends the creation request again. *)
Lemma second_run_posts_again :
  exists st1 issues1 st2 issues2,
    migrate (Sample.server 500) false Sample.aliases Sample.small_project
            Sample.start
    = Some (st1, issues1)
    /\ migrate (Sample.server 500) false Sample.aliases Sample.small_project
               (restart st1)
       = Some (st2, issues2)
    /\ creation_calls (log st1) = 1%nat
    /\ creation_calls (log st2) = 1%nat.
Proof.
  eexists _, _, _, _. split; [vm_compute; reflexivity|].
  split; [vm_compute; reflexivity|].
  split; vm_compute; reflexivity.
Qed.

Lemma second_run_skips_cached_witness :
  exists st1 issues1,
    migrate (Sample.server 201) false Sample.aliases Sample.small_project
            Sample.start
    = Some (st1, issues1)
    /\ (forall st2 issues2,
           migrate (Sample.server 201) false Sample.aliases Sample.small_project
                   (restart st1)
           = Some (st2, issues2) ->
           forall payload rs,
             Http (CreateIssue payload) rs ∈ log st2 ->
             key payload ∉ cached_data st1)
    /\ (cant_migrate st1 = [] ->
        exists st2,
          migrate (Sample.server 201) false Sample.aliases Sample.small_project
                  (restart st1)
          = Some (st2, Issues Sample.small_project)
          /\ creation_calls (log st2) = 0%nat).
Proof.
  eexists _, _. split; [vm_compute; reflexivity|].
  refine (second_run_skips_cached (Sample.server 201) false false
            Sample.aliases Sample.aliases Sample.small_project
            Sample.small_project Sample.start _ _ _ _ _).
  - reflexivity.
  - vm_compute. reflexivity.
  - reflexivity.
Defined.

Lemma extraction_under_configured_key_witness :
  let item := Sample.item "J-2" None [] in
  let P : gmap str Project := {[py "K" := Sample.small_project]} in
  exists p',
    _add_to_projects Sample.entities (py "K") item P = Some {[py "K" := p']}
    /\ last (Issues p') = Some (extracted_issue Sample.entities item)
    /\ (in_projects (item_project item) P = false ->
        p' = extracted_project Sample.entities item empty_project
        /\ Issues p' = [extracted_issue Sample.entities item])
    /\ (item_project item <> Some (py "K") ->
        in_projects (item_project item) P = false)
    /\ (item_project item <> Some (py "K") ->
        forall before after,
          extract Sample.entities (py "K") (before ++ item :: after) P
          = extract Sample.entities (py "K") (item :: after) ∅).
Proof.
  apply (extraction_under_configured_key Sample.entities (py "K")
           (Sample.item "J-2" None []) {[py "K" := Sample.small_project]}).
  apply extracting_singleton. simpl. apply map_Forall_empty.
Defined.

(* ===================================================================== *)
(** * More on the text functions *)
(* ===================================================================== *)

Lemma starts_with_spaces (n : nat) (t : str) :
  starts_with (replicate n space) t = true <-> (n <= leading_spaces t)%nat.
Proof.
  revert t; induction n as [|n IH]; intros t;
    cbn [replicate starts_with].
  - split; [lia|done].
  - destruct t as [|c t]; cbn [leading_spaces]; [split; [done|lia]|].
    rewrite (N.eqb_sym space c).
    destruct (c =? space); cbn [andb]; [rewrite IH|]; split; try done; lia.
Qed.

Lemma eight_spaces_miss (t : str) :
  (leading_spaces t < 8)%nat -> starts_with (replicate 8 space) t = false.
Proof.
  intros Hlt. destruct (starts_with _ _) eqn:H; [|done].
  apply starts_with_spaces in H. lia.
Qed.

(** The collapse keeps a short run of leading spaces as it is. *)
Lemma collapse_leading_spaces (s : str) :
  (leading_spaces s < 8)%nat ->
  leading_spaces (str_replace (replicate 8 space) [] s) = leading_spaces s.
Proof.
  induction s as [|c s IH]; [done|]. intros Hlt.
  rewrite str_replace_miss by (by apply eight_spaces_miss).
  cbn [leading_spaces] in *. destruct (c =? space); [|done].
  rewrite IH; [done|lia].
Qed.

(** No suffix of the collapsed text begins with 8 spaces. *)
Lemma collapse_suffixes (s : str) :
  forall pre t,
    str_replace (replicate 8 space) [] s = pre ++ t ->
    starts_with (replicate 8 space) t = false.
Proof.
  remember (length s) as n eqn:Hn.
  revert s Hn; induction n as [n IH] using lt_wf_ind; intros s Hn pre t.
  destruct s as [|c s].
  { intros [-> ->]%eq_sym%app_eq_nil. done. }
  destruct (starts_with (replicate 8 space) (c :: s)) eqn:Hsw.
  - apply starts_with_inv in Hsw as [rest Hrest]. rewrite Hrest.
    change (replicate 8 space) with (space :: replicate 7 space) at 1 2.
    rewrite str_replace_hit. cbn [app].
    apply (IH (length rest)); [|done].
    subst n. rewrite Hrest, length_app. simpl. lia.
  - rewrite str_replace_miss by done.
    destruct pre as [|c' pre]; cbn [app].
    + intros <-. apply eight_spaces_miss.
      rewrite <- (str_replace_miss _ []) by done.
      rewrite collapse_leading_spaces.
      * destruct (le_lt_dec 8 (leading_spaces (c :: s))) as [Hle|]; [|done].
        apply starts_with_spaces in Hle. congruence.
      * destruct (le_lt_dec 8 (leading_spaces (c :: s))) as [Hle|]; [|done].
        apply starts_with_spaces in Hle. congruence.
    + intros [= _ Heq]. apply (IH (length s) ltac:(subst n; simpl; lia) s eq_refl pre t Heq).
Qed.

(** A text in which no suffix begins with 8 spaces is left as it is. *)
Lemma collapse_nothing (r : str) :
  (forall pre t, r = pre ++ t -> starts_with (replicate 8 space) t = false) ->
  str_replace (replicate 8 space) [] r = r.
Proof.
  induction r as [|c r IH]; [done|]. intros Hno.
  rewrite str_replace_miss by (by apply (Hno [])).
  f_equal. apply IH. intros pre t ->. by apply (Hno (c :: pre)).
Qed.

Lemma leading_spaces_replicate (n : nat) (t : str) :
  leading_spaces (replicate n space ++ t) = (n + leading_spaces t)%nat.
Proof.
  induction n as [|n IH]; [done|].
  cbn [replicate app leading_spaces]. by rewrite N.eqb_refl, IH.
Qed.

(** The spaces a text begins with are counted within the text when it
    does not end with a space. *)
Lemma leading_spaces_app (pre t : str) :
  pre <> [] -> last pre <> Some space ->
  leading_spaces (pre ++ t) = leading_spaces pre.
Proof.
  induction pre as [|c pre IH]; [done|]. intros _ Hlast.
  cbn [app leading_spaces]. destruct (c =? space) eqn:Hc; [|done].
  f_equal. destruct pre as [|c' pre].
  - apply N.eqb_eq in Hc as ->. by destruct Hlast.
  - apply IH; [done|]. by rewrite last_cons_cons in Hlast.
Qed.

(** The collapse works apart on the two sides of a place that follows a
    character other than a space. *)
Lemma collapse_app (pre t : str) :
  last pre <> Some space ->
  str_replace (replicate 8 space) [] (pre ++ t)
  = str_replace (replicate 8 space) [] pre
    ++ str_replace (replicate 8 space) [] t.
Proof.
  remember (length pre) as m eqn:Hm.
  revert pre Hm; induction m as [m IH] using lt_wf_ind; intros pre Hm Hlast.
  destruct pre as [|c pre]; [done|].
  assert (leading_spaces ((c :: pre) ++ t) = leading_spaces (c :: pre)) as Hls
    by (by apply leading_spaces_app).
  destruct (starts_with (replicate 8 space) (c :: pre)) eqn:Hsw.
  - apply starts_with_inv in Hsw as [pre' Hpre']. rewrite Hpre', <- app_assoc.
    change (replicate 8 space) with (space :: replicate 7 space).
    rewrite !str_replace_hit. cbn [app].
    apply (IH (length pre')); [|done|].
    + subst m. rewrite Hpre', length_app. simpl. lia.
    + rewrite Hpre', last_app in Hlast. by destruct (last pre').
  - assert (starts_with (replicate 8 space) ((c :: pre) ++ t) = false) as Hsw'.
    { apply eight_spaces_miss. rewrite Hls.
      destruct (le_lt_dec 8 (leading_spaces (c :: pre))) as [Hle|]; [|done].
      apply starts_with_spaces in Hle. congruence. }
    cbn [app] in Hsw' |- *. rewrite !str_replace_miss by done. cbn [app].
    f_equal. apply (IH (length pre)); [subst m; simpl; lia|done|].
    destruct pre as [|c' pre]; [done|]. by rewrite last_cons_cons in Hlast.
Qed.

(** Of a run of [n] spaces that nothing but the end of the text or another
    character follows, the collapse keeps [n mod 8]. *)
Lemma collapse_run (n : nat) (rest : str) :
  leading_spaces rest = 0%nat ->
  str_replace (replicate 8 space) [] (replicate n space ++ rest)
  = replicate (n mod 8)%nat space ++ str_replace (replicate 8 space) [] rest.
Proof.
  intros Hrest. induction n as [n IH] using lt_wf_ind.
  destruct (le_lt_dec 8 n) as [Hle|Hlt].
  - replace n with (8 + (n - 8))%nat at 1 by lia.
    rewrite replicate_add, <- app_assoc.
    change (replicate 8 space) with (space :: replicate 7 space).
    rewrite str_replace_hit. cbn [app]. rewrite IH by lia.
    do 2 f_equal. replace n with ((n - 8) + 1 * 8)%nat at 2 by lia.
    by rewrite Nat.Div0.mod_add.
  - rewrite Nat.mod_small by lia. clear IH.
    induction n as [|n IH]; [done|].
    cbn [replicate app]. rewrite str_replace_miss.
    + f_equal. apply IH. lia.
    + apply eight_spaces_miss.
      change (space :: replicate n space ++ rest)
        with (replicate (S n) space ++ rest).
      rewrite leading_spaces_replicate. lia.
Qed.

(** X1.  [s.replace(' '*8, '')] keeps [n mod 8] spaces of every maximal run
    of [n] spaces of the text (a run that follows the start of the text or
    a character other than a space, and that the end of the text or such a
    character follows), and it works apart on what is before the run and
    on what is after it.  So no 8 consecutive spaces are left in the
    result, and collapsing a second time changes nothing. *)
Theorem collapse_leaves_no_eight_spaces (s : str) :
  (forall pre n rest,
      s = pre ++ replicate n space ++ rest ->
      last pre <> Some space -> leading_spaces rest = 0%nat ->
      str_replace (replicate 8 space) [] s
      = str_replace (replicate 8 space) [] pre
        ++ replicate (n mod 8)%nat space
        ++ str_replace (replicate 8 space) [] rest)
  /\ (forall pre post,
      str_replace (replicate 8 space) [] s <> pre ++ replicate 8 space ++ post)
  /\ str_replace (replicate 8 space) []
       (str_replace (replicate 8 space) [] s)
     = str_replace (replicate 8 space) [] s.
Proof.
  split_and!.
  - intros pre n rest -> Hlast Hrest.
    rewrite collapse_app by done. f_equal. by apply collapse_run.
  - intros pre post Heq.
    pose proof (collapse_suffixes s pre _ Heq) as H.
    by rewrite starts_with_app in H.
  - apply collapse_nothing. apply collapse_suffixes.
Qed.

Lemma replace_from_length (old : str) (k : nat) (s : str) :
  (length (replace_from old [] k s) <= length s)%nat.
Proof.
  revert k; induction s as [|c s IH]; intros k; simpl; [done|].
  destruct k as [|k].
  - destruct (starts_with old (c :: s)); simpl.
    + etrans; [apply IH|lia].
    + specialize (IH 0%nat). lia.
  - etrans; [apply IH|lia].
Qed.

Lemma replace_from_elem (old : str) (k : nat) (s : str) (x : N) :
  x ∈ replace_from old [] k s -> x ∈ s.
Proof.
  revert k; induction s as [|c s IH]; intros k; simpl; [done|].
  destruct k as [|k].
  - destruct (starts_with old (c :: s)); simpl.
    + intros H%IH. by right.
    + intros [->|H%IH]%elem_of_cons; [by left|by right].
  - intros H%IH. by right.
Qed.

Section MoreEntityFacts.

Variable tbl : list (str * N).

Lemma sub_from_length (k : nat) (s : str) :
  (length (sub_from tbl k s) <= length s)%nat.
Proof.
  revert k; induction s as [|c s IH]; intros k; [done|].
  cbn [sub_from]. destruct k as [|k].
  - destruct (entity_at tbl (c :: s)) as [n|].
    + rewrite length_app. specialize (IH (S (length n))).
      unfold entity_char. destruct (dict_get tbl n); simpl; lia.
    + specialize (IH 0%nat). simpl. lia.
  - etrans; [apply IH|simpl; lia].
Qed.

(** X2.  The decoded text is never longer than the text: the collapse
    removes characters and an entity gives at most one character. *)
Theorem htmlentitydecode_not_longer (s : option str) :
  (length (htmlentitydecode tbl s) <= length (default [] s))%nat.
Proof.
  destruct s as [s|]; simpl; [|done].
  etrans; [apply sub_from_length|apply replace_from_length].
Qed.

(** X3.  In a text without [&] no entity is looked for: the decoding is
    the collapse of the spaces alone. *)
Theorem htmlentitydecode_without_ampersand (s : str) :
  ampersand ∉ s ->
  htmlentitydecode tbl (Some s) = str_replace (replicate 8 space) [] s.
Proof.
  intros Hamp. unfold htmlentitydecode. apply re_sub_plain.
  intros H%replace_from_elem. done.
Qed.

(** X4.  A recognized entity is replaced by its character and the scan
    goes on after its [;]: the character put in place of the entity is not
    scanned again, so that a text escaped twice is decoded once
    (["&amp;lt;"] gives ["&lt;"]). *)
Theorem entity_replaced_once (n rest : str) (cp : N) :
  names_plain tbl = true ->
  recognized tbl n cp ->
  re_sub_entities tbl (ampersand :: n ++ semicolon :: rest)
  = cp :: re_sub_entities tbl rest.
Proof. apply re_sub_entity. Qed.

End MoreEntityFacts.

(* ===================================================================== *)
(** * The aliases *)
(* ===================================================================== *)

#[local] Set Warnings "-clear-no-such-hyp".

(** X5.  The list the alias loop builds holds the labels that are not
    aliased to ["DELETED"], each one after its replacement when it has one,
    and nothing else: a label aliased to another text stays in the list
    beside that text, and a deleted label comes back when it is the
    replacement of another label. *)
Theorem alias_result_members (aliases : gmap str str) (labels : list str)
        (x : str) :
  x ∈ alias_result aliases labels <->
  (x ∈ labels /\ aliases !! x <> Some (py "DELETED")) \/
  (exists l, l ∈ labels /\ aliases !! l = Some x /\
             x <> py "DELETED" /\ x <> py "same").
Proof.
  induction labels as [|label rest IH]; simpl.
  - split; [by intros ?%elem_of_nil|].
    intros [[H _]|(l & H & _)]; by apply elem_of_nil in H.
  - destruct (aliases !! label) as [a|] eqn:Ha;
      repeat case_bool_decide;
      rewrite ?elem_of_cons, IH;
      setoid_rewrite elem_of_cons; naive_solver congruence.
Qed.

(** The dict the rows give, from the dict [d] they are added to. *)
Lemma dict_of_rows_lookup (rows : list (list str)) (d d' : gmap str str) :
  dict_of_rows rows d = Some d' ->
  Forall (fun r => length r = 2%nat) rows /\
  forall k, d' !! k = match row_value k rows with
                      | Some v => Some v
                      | None => d !! k
                      end.
Proof.
  revert d; induction rows as [|r rows IH]; intros d.
  - intros [= <-]. split; [constructor|done].
  - destruct r as [|k0 [|v0 [|? ?]]]; try done. cbn [dict_of_rows].
    intros [Hall Hlook]%IH. split; [by constructor|].
    intros k. rewrite Hlook. unfold row_value. cbn [omap list_omap].
    case_bool_decide as Hk.
    + subst k0. rewrite last_cons.
      destruct (last _) as [v|]; [done|].
      by rewrite lookup_insert_eq.
    + destruct (last _) as [v|]; [done|].
      by rewrite lookup_insert_ne.
Qed.

Lemma dict_of_rows_fails (rows : list (list str)) (d : gmap str str) :
  dict_of_rows rows d = None ->
  ~ Forall (fun r => length r = 2%nat) rows.
Proof.
  revert d; induction rows as [|r rows IH]; intros d; [done|].
  destruct r as [|k0 [|v0 [|? ?]]]; cbn [dict_of_rows];
    try (intros _ Hall; by inversion Hall).
  intros H%IH Hall. apply H. by inversion Hall.
Qed.

(** X6.  The aliases read from the rows of the alias file: when every row
    has two fields, a label is aliased to the second field of the last row
    that begins with it, and to nothing when no row begins with it; a row
    with another number of fields makes the loading raise. *)
Theorem set_aliases_path_rows (rows : list (list str)) :
  match set_aliases_path (Some rows) with
  | Some aliases =>
      Forall (fun r => length r = 2%nat) rows /\
      forall k, aliases !! k = row_value k rows
  | None => ~ Forall (fun r => length r = 2%nat) rows
  end.
Proof.
  unfold set_aliases_path.
  destruct (dict_of_rows rows ∅) as [d|] eqn:Hd.
  - apply dict_of_rows_lookup in Hd as [Hall Hlook]. split; [done|].
    intros k. rewrite Hlook, lookup_empty. by destruct (row_value k rows).
  - by apply dict_of_rows_fails in Hd.
Qed.

(* ===================================================================== *)
(** * More on the extractor *)
(* ===================================================================== *)

Section MoreExtractorFacts.

Variable tbl : list (str * N).
Variable jp : str.

(** ** The items that count *)

Lemma kept_items_snoc_same (l : list Item.t) (x : Item.t) :
  of_project jp x = true ->
  kept_items jp (l ++ [x]) = kept_items jp l ++ [x].
Proof.
  intros Hx. induction l as [|a l IH]; [done|].
  cbn [app kept_items]. rewrite forallb_app. cbn [forallb]. rewrite Hx.
  rewrite ?andb_true_r.
  destruct (forallb (of_project jp) l); [done|exact IH].
Qed.

Lemma kept_items_snoc_other (l : list Item.t) (x : Item.t) :
  of_project jp x = false ->
  kept_items jp (l ++ [x]) = [x].
Proof.
  intros Hx. induction l as [|a l IH]; [done|].
  cbn [app kept_items]. rewrite forallb_app. cbn [forallb]. rewrite Hx.
  by rewrite andb_false_r.
Qed.

Lemma kept_items_all (items : list Item.t) :
  Forall (fun it => item_project it = Some jp) items ->
  kept_items jp items = items.
Proof.
  intros Hall. destruct Hall as [|it rest _ Hrest]; [done|].
  cbn [kept_items].
  assert (forallb (of_project jp) rest = true) as ->; [|done].
  apply forallb_forall. intros it' Hin.
  rewrite Forall_forall in Hrest. apply bool_decide_eq_true_2.
  apply Hrest. by apply list_elem_of_In.
Qed.

Lemma kept_items_nonempty (items : list Item.t) :
  items <> [] -> kept_items jp items <> [].
Proof.
  induction items as [|it rest IH]; [done|]. intros _.
  cbn [kept_items]. destruct (forallb _ rest) eqn:Hall; [done|].
  apply IH. by intros ->.
Qed.

(** ** The entry built from a list of items *)

Lemma foldl_extracted_counts (its : list Item.t) (p : Project) :
  map_Forall (fun _ v => is_Some v) (Milestones p) ->
  map_Forall (fun _ v => is_Some v)
    (Milestones (foldl (fun p it => extracted_project tbl it p) p its)).
Proof.
  revert p; induction its as [|it its IH]; intros p Hp; [done|].
  simpl. apply IH. by apply extracted_counts.
Qed.

Lemma in_projects_singleton (item : Item.t) (p : Project) :
  in_projects (item_project item) ({[jp := p]} : gmap str Project)
  = of_project jp item.
Proof.
  unfold in_projects, of_project.
  destruct (item_project item) as [k|].
  - destruct (decide (k = jp)) as [->|Hne].
    + rewrite lookup_singleton_eq.
      rewrite !bool_decide_eq_true_2; [done|done|by eexists].
    + rewrite lookup_singleton_ne by done.
      rewrite !bool_decide_eq_false_2; [done|congruence|by intros [? ?]].
  - by rewrite bool_decide_eq_false_2.
Qed.

(** The extraction of a document leaves one entry, under the configured
    key: the one built from the items that count. *)
Lemma extract_entry (items : list Item.t) :
  items <> [] ->
  extract tbl jp items ∅
  = Some {[jp := foldl (fun p it => extracted_project tbl it p)
                       empty_project (kept_items jp items)]}.
Proof.
  induction items as [|x l IH] using rev_ind; [done|]. intros _.
  unfold extract in *. rewrite for_each_app.
  destruct l as [|a l'].
  - cbn [for_each app mbind option_bind].
    rewrite add_to_projects_result by (by intros ? ? ?).
    rewrite lookup_empty. simpl. by destruct (in_projects _ _).
  - rewrite IH by done. cbn [mbind option_bind for_each].
    rewrite add_to_projects_result.
    2:{ apply extracting_singleton. apply foldl_extracted_counts.
        apply map_Forall_empty. }
    rewrite in_projects_singleton, lookup_singleton_eq. cbn [from_option id].
    destruct (of_project jp x) eqn:Hx.
    + rewrite kept_items_snoc_same by done. by rewrite foldl_app.
    + by rewrite kept_items_snoc_other.
Qed.

Lemma foldl_extracted_issues (its : list Item.t) (p : Project) :
  Issues (foldl (fun p it => extracted_project tbl it p) p its)
  = Issues p ++ (extracted_issue tbl <$> its).
Proof.
  revert p; induction its as [|it its IH]; intros p; simpl.
  - by rewrite app_nil_r.
  - rewrite IH. simpl. by rewrite <- app_assoc.
Qed.

(** X7.  The extraction of a document that has items leaves one entry,
    under the configured key, whose issues are those of the items from the
    last item of another project on, in the order of the document: one
    issue per item when all the items are of the configured project. *)
Theorem extract_keeps_last_run (items : list Item.t) :
  items <> [] ->
  exists p,
    extract tbl jp items ∅ = Some {[jp := p]}
    /\ Issues p = extracted_issue tbl <$> kept_items jp items
    /\ (Forall (fun it => item_project it = Some jp) items ->
        Issues p = extracted_issue tbl <$> items).
Proof.
  intros Hne. eexists. split; [by apply extract_entry|].
  rewrite foldl_extracted_issues. simpl. split; [done|].
  intros Hall. by rewrite kept_items_all.
Qed.

(** ** The counts *)

Lemma occurrences_app (x : str) (l1 l2 : list str) :
  occurrences x (l1 ++ l2) = (occurrences x l1 + occurrences x l2)%Z.
Proof. unfold occurrences. rewrite filter_app, length_app. lia. Qed.

Lemma occurrences_one (x y : str) :
  occurrences x [y] = if bool_decide (y = x) then 1%Z else 0%Z.
Proof.
  unfold occurrences. case_bool_decide.
  - by rewrite filter_cons_True.
  - by rewrite filter_cons_False.
Qed.

Lemma occurrences_nonneg (x : str) (l : list str) : (0 <= occurrences x l)%Z.
Proof. unfold occurrences. lia. Qed.

Lemma occurrences_elem (x : str) (l : list str) :
  x ∈ l -> (1 <= occurrences x l)%Z.
Proof.
  intros Hin. unfold occurrences.
  assert (x ∈ filter (fun y => y = x) l) as Hf
    by (by apply list_elem_of_filter).
  destruct (filter _ l); [by apply elem_of_nil in Hf|simpl; lia].
Qed.

Lemma histogram_default (l : list str) (x : str) :
  default 0%Z (histogram l x) = occurrences x l.
Proof.
  unfold histogram. pose proof (occurrences_nonneg x l).
  destruct (0 <? occurrences x l)%Z eqn:Hpos; simpl; [done|].
  apply Z.ltb_ge in Hpos. lia.
Qed.

Lemma histogram_snoc (l : list str) (x y : str) :
  histogram (l ++ [y]) x
  = if bool_decide (y = x) then Some (occurrences x l + 1)%Z
    else histogram l x.
Proof.
  unfold histogram. rewrite occurrences_app, occurrences_one.
  pose proof (occurrences_nonneg x l).
  case_bool_decide.
  - destruct (0 <? _)%Z eqn:Hpos; [done|]. apply Z.ltb_ge in Hpos. lia.
  - by rewrite Z.add_0_r.
Qed.

Lemma incr_histogram (L : gmap str Z) (l : list str) (y : str) :
  (forall x, L !! x = histogram l x) ->
  forall x, incr y L !! x = histogram (l ++ [y]) x.
Proof.
  intros HL x. unfold incr. rewrite histogram_snoc.
  case_bool_decide as Hxy.
  - subst y. by rewrite lookup_insert_eq, HL, histogram_default.
  - by rewrite lookup_insert_ne.
Qed.

Lemma foldl_incr_histogram (ys : list str) (L : gmap str Z) (l : list str) :
  (forall x, L !! x = histogram l x) ->
  forall x, foldl (fun d y => incr y d) L ys !! x = histogram (l ++ ys) x.
Proof.
  revert L l; induction ys as [|y ys IH]; intros L l HL x; simpl.
  - by rewrite app_nil_r.
  - rewrite (IH _ (l ++ [y])); [by rewrite <- app_assoc|].
    by apply incr_histogram.
Qed.

Lemma counted_empty : counted empty_project [].
Proof. repeat split; intros x; by rewrite lookup_empty. Qed.

(** An item adds its labels, its component and its fix version to the
    counts. *)
Lemma counted_step (p : Project) (its : list Item.t) (it : Item.t) :
  counted p its -> counted (extracted_project tbl it p) (its ++ [it]).
Proof.
  intros (HL & HC & HM). unfold counted. rewrite !bind_app.
  cbn [mbind list_bind]. rewrite !app_nil_r.
  unfold extracted_project. simpl. split; [|split].
  - by apply foldl_incr_histogram.
  - destruct (Item.component it) as [c|]; simpl.
    + by apply incr_histogram.
    + intros x. by rewrite app_nil_r.
  - destruct (Item.fixVersion it) as [v|]; simpl.
    + intros x. rewrite histogram_snoc. case_bool_decide as Hx.
      * subst x. rewrite lookup_insert_eq, HM.
        pose proof (histogram_default
          (its ≫= fun it => option_list (Item.fixVersion it)) v) as Hd.
        destruct (histogram _ v); simpl in *; by rewrite Hd.
      * by rewrite lookup_insert_ne.
    + intros x. by rewrite app_nil_r.
Qed.

Lemma counted_foldl (more its : list Item.t) (p : Project) :
  counted p its ->
  counted (foldl (fun p it => extracted_project tbl it p) p more)
          (its ++ more).
Proof.
  revert its p; induction more as [|it more IH]; intros its p Hp; simpl.
  - by rewrite app_nil_r.
  - replace (its ++ it :: more) with ((its ++ [it]) ++ more)
      by (by rewrite <- app_assoc).
    apply IH. by apply counted_step.
Qed.

(** X8.  The three dicts of the extracted entry are histograms of the
    items that count: a label, a component or a fix version is a key
    exactly when it occurs, and its value is the number of times it
    occurs. *)
Theorem extract_counts (items : list Item.t) :
  items <> [] ->
  exists p,
    extract tbl jp items ∅ = Some {[jp := p]}
    /\ (forall x, Labels p !! x
                  = histogram (kept_items jp items ≫= counted_labels) x)
    /\ (forall x, Components p !! x
                  = histogram (kept_items jp items
                               ≫= fun it => option_list (Item.component it)) x)
    /\ (forall v, Milestones p !! v
                  = Some <$> histogram
                      (kept_items jp items
                       ≫= fun it => option_list (Item.fixVersion it)) v).
Proof.
  intros Hne. eexists. split; [by apply extract_entry|].
  apply (counted_foldl (kept_items jp items) [] empty_project counted_empty).
Qed.

(** The fix version of an item that counts is a key of ['Milestones'],
    with a count of at least 1. *)
Lemma fix_version_counted (its : list Item.t) (it : Item.t) (m : str) :
  it ∈ its -> Item.fixVersion it = Some m ->
  exists n,
    Milestones (foldl (fun p it => extracted_project tbl it p)
                      empty_project its) !! m = Some (Some n)
    /\ (1 <= n)%Z.
Proof.
  intros Hit Hm.
  destruct (counted_foldl its [] empty_project counted_empty) as (_ & _ & HM).
  simpl in HM. rewrite HM.
  assert (m ∈ its ≫= fun it => option_list (Item.fixVersion it)) as Hin.
  { apply list_elem_of_bind. exists it. split; [|done].
    rewrite Hm. simpl. by left. }
  apply occurrences_elem in Hin. unfold histogram.
  destruct (0 <? _)%Z eqn:Hpos; [|apply Z.ltb_ge in Hpos; lia].
  simpl. by eexists.
Qed.

(** X9.  Every extracted issue has its comments, has no ['milestone'] yet,
    and names a milestone only if the name is a key of ['Milestones'] with
    a count of at least 1: what [migrate] reads of an issue is there. *)
Theorem extracted_issues_ready (items : list Item.t) :
  items <> [] ->
  exists p,
    extract tbl jp items ∅ = Some {[jp := p]}
    /\ forall i, i ∈ Issues p ->
         is_Some (comments i) /\ milestone i = None /\
         forall m, milestone_name i = Some m ->
                   exists n, Milestones p !! m = Some (Some n) /\ (1 <= n)%Z.
Proof.
  intros Hne. eexists. split; [by apply extract_entry|].
  intros i. rewrite foldl_extracted_issues. simpl.
  intros (it & -> & Hit)%list_elem_of_fmap. simpl.
  split; [by eexists|]. split; [done|]. intros m Hm.
  by apply (fix_version_counted _ it).
Qed.

End MoreExtractorFacts.

(* ===================================================================== *)
(** * More on the milestone resolver and the cache *)
(* ===================================================================== *)

(** X10.  The milestone resolver changes the values of ['Milestones']
    only: the names stay, a name keeps its count exactly when it is the
    title of a destination milestone (no identifier of the destination is
    recorded) and is mapped to [None] otherwise; resolving a second time
    on the same listing changes nothing. *)
Theorem milestones_resolver (titles : list str) (p : Project) :
  dom (Milestones (milestones titles p)) = dom (Milestones p)
  /\ (forall name n,
        Milestones (milestones titles p) !! name = Some (Some n) <->
        name ∈ titles /\ Milestones p !! name = Some (Some n))
  /\ Issues (milestones titles p) = Issues p
  /\ milestones titles (milestones titles p) = milestones titles p.
Proof.
  split; [|split; [|split; [done|]]].
  - apply set_eq. intros name. rewrite !elem_of_dom, milestones_lookup.
    by rewrite fmap_is_Some.
  - intros name n. rewrite milestones_lookup.
    destruct (Milestones p !! name) as [v|]; simpl; [|naive_solver].
    case_bool_decide; naive_solver.
  - destruct p as [M C L I]. unfold milestones. simpl. f_equal.
    apply map_eq. intros name. rewrite !map_lookup_imap.
    destruct (M !! name) as [v|]; simpl; [|done].
    by destruct (find_in_milestones titles name).
Qed.

(** X11.  An issue that is not cached and whose milestone name is the
    title of a destination milestone is posted with the ['milestone'] set
    to the count the extraction has recorded for the name, without its
    ['milestone_name'] and its comments. *)
Theorem resolved_milestone_posts_count {World : Type}
        (http_post : World -> request -> World * response)
        (aliases : gmap str str) (titles : list str) (p : Project)
        (index : nat) (issue : Issue) (name : str) (n : Z) (cs : list str)
        (st : state World) :
  key issue ∉ cached_data st ->
  milestone_name issue = Some name ->
  comments issue = Some cs ->
  Milestones p !! name = Some (Some n) ->
  name ∈ titles ->
  Milestones (milestones titles p) ⊆ Milestones_ st ->
  let payload :=
    set_comments None
      (set_milestone_name None (set_milestone (Some (Some n)) issue)) in
  exists st' rs l,
    migrate_issue http_post false aliases index issue st = Some (st', payload)
    /\ log st' = log st ++ Http (CreateIssue payload) rs :: l.
Proof.
  intros Hkey Hname Hcs Hn Hin Hms payload.
  assert (Milestones_ st !! name = Some (Some n)) as Hm.
  { eapply lookup_weaken; [|exact Hms].
    rewrite milestones_lookup, Hn. simpl. by rewrite bool_decide_eq_true_2. }
  destruct (migrate_issue_total http_post false aliases index issue st)
    as [[st' issue'] Hstep]; [by eexists|].
  assert (issue' = payload /\
          exists rs l, log st' = log st ++ Http (CreateIssue payload) rs :: l)
    as [-> (rs & l & Hl)]; [|by exists st', rs, l].
  revert Hstep. unfold migrate_issue.
  rewrite bool_decide_eq_false_2 by done.
  unfold resolve_milestone, Milestones_get. rewrite Hname, Hm.
  unfold submit. cbn [comments set_milestone set_milestone_name].
  rewrite Hcs. cbn [mbind option_bind].
  fold payload.
  destruct (_save_issue _ _ _ _ _) as [[st2 r]|] eqn:Hsave; [|done].
  cbn [mbind option_bind]. intros [= <- <-]. split; [done|].
  destruct (save_issue_effect _ _ _ _ _ _ _ Hsave) as (_ & _ & l & Hl & Hr).
  destruct r.
  - destruct Hr as (_ & _ & _ & rs & -> & _).
    exists rs, [BarUpdate index]. simpl. by rewrite Hl, <- app_assoc.
  - by destruct Hr as ([=] & _).
  - destruct Hr as (_ & _ & _ & rs & lc & -> & _).
    exists rs, (CacheWrite (cached_data st2) :: lc ++ [BarUpdate index]).
    simpl. by rewrite Hl, <- app_assoc.
Qed.

(** X12.  A key that [_save_issue] has saved is read back: when the call
    does not return [False], the key is the last of the cached keys, and a
    new process that loads the cache file gets exactly the cached keys,
    whatever it held before. *)
Theorem saved_key_is_reloaded {World : Type}
        (http_post : World -> request -> World * response) (dry_run : bool)
        (issue : Issue) (cs : list str) (st st' : state World) (r : retval)
        (held : list str) :
  _save_issue http_post dry_run issue cs st = Some (st', r) ->
  r <> RetFalse ->
  cached_data st' = cached_data st ++ [key issue]
  /\ set_cache_path (file st') held = cached_data st'.
Proof.
  intros Hsave Hr.
  destruct (save_issue_effect _ _ _ _ _ _ _ Hsave) as (_ & _ & l & _ & Hshape).
  destruct r; [done| |].
  - destruct Hshape as (_ & Hc & -> & _). by rewrite Hc.
  - destruct Hshape as (_ & Hc & -> & _). by rewrite Hc.
Qed.

(* ===================================================================== *)
(** * More on the migration driver *)
(* ===================================================================== *)

Lemma creation_keys_app (l1 l2 : list event) :
  creation_keys (l1 ++ l2) = creation_keys l1 ++ creation_keys l2.
Proof. apply omap_app. Qed.

Lemma creation_keys_comments (l : list event) :
  Forall (fun e => is_comment e = true) l -> creation_keys l = [].
Proof.
  induction 1 as [|e l He _ IH]; [done|].
  destruct e as [[payload|n c] rs|keys|n]; try done.
Qed.

Section MoreMigrationFacts.

Context {World : Type}.
Variable http_post : World -> request -> World * response.

(** The requests for the comments are those of the comments, in order,
    on the issue of the given number. *)
Lemma post_comments_requests (n : Z) (cs : list str) (st : state World) :
  exists l, log (post_comments http_post n cs st) = log st ++ l
            /\ requests l = CreateComment n <$> cs
            /\ length l = length cs.
Proof.
  revert st; induction cs as [|c cs IH]; intros st.
  - exists []. by rewrite app_nil_r.
  - unfold post_comments in *. cbn [foldl].
    destruct (IH (post http_post (CreateComment n c) st).1)
      as (l & Hl & Hreq & Hlen).
    destruct (post_effect http_post (CreateComment n c) st)
      as (_ & _ & _ & _ & Hl1).
    eexists (_ :: l). rewrite Hl, Hl1, <- app_assoc.
    split; [done|]. simpl. by rewrite Hreq, Hlen.
Qed.

(** X13.  When the destination answers the creation of an issue with 201,
    [_save_issue] writes the cache at once, before any comment, and then
    posts the comments in their order on the issue whose number the
    answer gives; nothing else is requested. *)
Theorem created_issue_requests (issue : Issue) (cs : list str)
        (st : state World) :
  let rs := (http_post (world st) (CreateIssue issue)).2 in
  status_code rs = 201%Z ->
  exists st' lc,
    _save_issue http_post false issue cs st = Some (st', RetNone)
    /\ log st' = log st ++ Http (CreateIssue issue) rs
                   :: CacheWrite (cached_data st ++ [key issue]) :: lc
    /\ requests lc = CreateComment (number rs) <$> cs
    /\ length lc = length cs.
Proof.
  intros rs Hrs.
  assert ((post http_post (CreateIssue issue) st).2 = rs) as Hpost.
  { unfold post, rs. by destruct (http_post _ _). }
  rewrite save_issue_created by (by rewrite Hpost).
  rewrite Hpost.
  destruct (post_effect http_post (CreateIssue issue) st)
    as (Hc & _ & _ & _ & Hl).
  destruct (post_comments_requests (number rs) cs
              (save_cache (key issue)
                 (post http_post (CreateIssue issue) st).1))
    as (lc & Hlc & Hreq & Hlen).
  eexists _, lc. split; [done|].
  rewrite Hlc. simpl. rewrite Hl, Hc, Hpost, <- !app_assoc. done.
Qed.

Variable dry_run : bool.
Variable aliases : gmap str str.

(** What a turn of the loop adds to the cached keys, to [cant_migrate] and
    to the creation requests. *)
Lemma migrate_issue_account (index : nat) (issue issue' : Issue)
      (st st' : state World) :
  migrate_issue http_post dry_run aliases index issue st = Some (st', issue') ->
  exists l c ks,
    log st' = log st ++ l /\ cant_migrate st' = cant_migrate st ++ c /\
    cached_data st' = cached_data st ++ ks /\
    (ks = [] \/ ks = [key issue] /\ key issue ∉ cached_data st) /\
    (creation_keys l = [] \/ creation_keys l = [key issue]) /\
    (key issue ∈ cached_data st' \/ c = [CantTitle (title issue)] \/
     c = [CantIssue (set_milestone (Some None) issue)]) /\
    (forall x, x ∈ c ->
       x = CantTitle (title issue) \/
       x = CantIssue (set_milestone (Some None) issue) /\
       exists name, milestone_name issue = Some name /\
                    Milestones_ st !! name = Some None).
Proof.
  intros H. apply migrate_issue_outcome in H as (o & l & c & Hl & Hc & Ho).
  exists l, c. destruct o; simpl in Ho.
  - destruct Ho as (Hin & -> & -> & Hcd & _).
    exists []. split_and!; [done|done|by rewrite app_nil_r|by left|by left| |].
    + left. by rewrite Hcd.
    + intros x Hx. by apply elem_of_nil in Hx.
  - destruct Ho as (Hnin & -> & (name & Hname & Hm & ->) & Hcd & _).
    exists []. split_and!; [done|done|by rewrite app_nil_r|by left|by left| |].
    + right. by right.
    + intros x Hx%list_elem_of_singleton. right. split; [done|]. by exists name.
  - destruct Ho as (Hnin & _ & (payload & rs & Hk & _ & _ & ->) & -> & Hcd & _).
    exists []. split_and!; [done|done|by rewrite app_nil_r|by left| | |].
    + right. simpl. by rewrite Hk.
    + right. by left.
    + intros x Hx%list_elem_of_singleton. by left.
  - destruct Ho as (Hnin & _ & -> & -> & Hcd & _).
    exists [key issue]. split_and!; [done|done|done|by right|by left| |].
    + left. rewrite Hcd. apply elem_of_app. right. by left.
    + intros x Hx. by apply elem_of_nil in Hx.
  - destruct Ho as (Hnin & _ & (payload & rs & lc & Hk & _ & _ & Hall & _ & ->)
                    & -> & Hcd & _).
    exists [key issue]. split_and!; [done|done|done|by right| | |].
    + right. cbn [creation_keys omap list_omap].
      change (omap _ (lc ++ [BarUpdate index]))
        with (creation_keys (lc ++ [BarUpdate index])).
      rewrite creation_keys_app, creation_keys_comments by done.
      by rewrite Hk.
    + left. rewrite Hcd. apply elem_of_app. right. by left.
    + intros x Hx. by apply elem_of_nil in Hx.
Qed.

(** The same for a run of the loop. *)
Lemma migrate_loop_account (issues issues' : list Issue) (index : nat)
      (st st' : state World) :
  migrate_loop http_post dry_run aliases index issues st = Some (st', issues') ->
  exists l c ks,
    log st' = log st ++ l /\ cant_migrate st' = cant_migrate st ++ c /\
    cached_data st' = cached_data st ++ ks /\
    NoDup ks /\ (forall k, k ∈ ks -> k ∉ cached_data st) /\
    creation_keys l `sublist_of` (key <$> issues) /\
    (forall i, i ∈ issues ->
       key i ∈ cached_data st' \/ CantTitle (title i) ∈ c \/
       CantIssue (set_milestone (Some None) i) ∈ c) /\
    (forall x, x ∈ c ->
       exists i, i ∈ issues /\
                 (x = CantTitle (title i) \/
                  x = CantIssue (set_milestone (Some None) i) /\
                  exists name (st0 : state World),
                    milestone_name i = Some name /\
                                   Milestones_ st ⊆ Milestones_ st0 /\
                                   Milestones_ st0 !! name = Some None)).
Proof.
  revert issues' index st.
  induction issues as [|issue rest IH]; intros issues' index st H.
  - injection H as <- <-. exists [], [], []. rewrite !app_nil_r.
    split_and!; [done|done|done|constructor| |constructor| |].
    + intros k Hk. by apply elem_of_nil in Hk.
    + intros i Hi. by apply elem_of_nil in Hi.
    + intros x Hx. by apply elem_of_nil in Hx.
  - apply migrate_loop_cons in H as (st1 & issue1 & rest' & Hstep & Hloop & ->).
    pose proof (migrate_issue_milestones _ _ _ _ _ _ _ _ Hstep) as Hgrow.
    apply migrate_issue_account in Hstep
      as (l1 & c1 & ks1 & Hl1 & Hc1 & Hk1 & Hks1 & Hcr1 & Hacc1 & Hcant1).
    apply IH in Hloop
      as (l2 & c2 & ks2 & Hl2 & Hc2 & Hk2 & Hnd2 & Hnew2 & Hsub2 & Hacc2 & Hcant2).
    exists (l1 ++ l2), (c1 ++ c2), (ks1 ++ ks2).
    rewrite Hl2, Hl1, Hc2, Hc1, Hk2, Hk1, <- !app_assoc.
    split; [done|]. split; [done|]. split; [done|].
    split; [|split; [|split; [|split]]].
    + apply NoDup_app. split; [|split; [|done]].
      * destruct Hks1 as [->|[-> _]]; [constructor|apply NoDup_singleton].
      * intros k Hk1' Hk2'. apply (Hnew2 k Hk2'). rewrite Hk1.
        apply elem_of_app. by right.
    + intros k [Hin|Hin]%elem_of_app.
      * destruct Hks1 as [->|[-> Hnin]]; [by apply elem_of_nil in Hin|].
        by apply list_elem_of_singleton in Hin as ->.
      * intros Hc. apply (Hnew2 k Hin). rewrite Hk1. apply elem_of_app. by left.
    + rewrite creation_keys_app, fmap_cons.
      destruct Hcr1 as [->| ->]; simpl.
      * by apply sublist_cons.
      * by apply sublist_skip.
    + intros i [->|Hi]%elem_of_cons.
      * destruct Hacc1 as [Hin|[-> | ->]].
        -- left. rewrite Hk1 in Hin. rewrite app_assoc.
           apply elem_of_app. by left.
        -- right. left. by left.
        -- right. right. by left.
      * destruct (Hacc2 i Hi) as [Hin|[Hin|Hin]].
        -- left. by rewrite Hk2, Hk1, <- app_assoc in Hin.
        -- right. left. apply elem_of_app. by right.
        -- right. right. apply elem_of_app. by right.
    + intros x [Hx|Hx]%elem_of_app.
      * exists issue. split; [by left|].
        destruct (Hcant1 x Hx) as [->|[-> (name & Hn & Hm)]]; [by left|].
        right. split; [done|]. by exists name, st.
      * destruct (Hcant2 x Hx) as (i & Hi & Hwhy). exists i.
        split; [by right|].
        destruct Hwhy as [->|[-> (name & st0 & Hn & Hsub & Hm)]]; [by left|].
        right. split; [done|]. exists name, st0. split; [done|].
        split; [|done]. by etrans.
Qed.

End MoreMigrationFacts.

Lemma creation_calls_keys (l : list event) :
  creation_calls l = length (creation_keys l).
Proof.
  unfold creation_calls, creation_keys.
  induction l as [|e l IH]; [done|].
  destruct e as [[payload|n c] rs|keys|n]; cbn [omap list_omap];
    (rewrite filter_cons_True by done; simpl; by rewrite IH)
    || (rewrite filter_cons_False by done; exact IH).
Qed.

(** X14.  A run of [migrate] only appends to the cached keys, and what it
    appends are distinct keys that were not cached: a cache without
    duplicates stays without duplicates. *)
Theorem cache_grows_without_duplicates {World : Type}
        (http_post : World -> request -> World * response) (dry_run : bool)
        (aliases : gmap str str) (p : Project) (st st' : state World)
        (issues' : list Issue) :
  migrate http_post dry_run aliases p st = Some (st', issues') ->
  exists ks,
    cached_data st' = cached_data st ++ ks
    /\ NoDup ks
    /\ (forall k, k ∈ ks -> k ∉ cached_data st)
    /\ (NoDup (cached_data st) -> NoDup (cached_data st')).
Proof.
  intros (st1 & Hloop & ->)%migrate_unfold.
  apply migrate_loop_account in Hloop
    as (l & c & ks & _ & _ & Hk & Hnd & Hnew & _).
  simpl in *. exists ks. split_and!; [done|done|done|].
  intros Hold. rewrite Hk. apply NoDup_app. split_and!; [done| |done].
  intros k Hk1 Hk2. by apply (Hnew k Hk2).
Qed.

(** X15.  After a run of [migrate] every issue of the project is accounted
    for: its key is cached, or its title is in [cant_migrate], or the issue
    itself is there with its milestone set to [None]; and [cant_migrate]
    holds nothing else. *)
Theorem every_issue_accounted {World : Type}
        (http_post : World -> request -> World * response) (dry_run : bool)
        (aliases : gmap str str) (p : Project) (st st' : state World)
        (issues' : list Issue) :
  migrate http_post dry_run aliases p st = Some (st', issues') ->
  (forall i, i ∈ Issues p ->
     key i ∈ cached_data st' \/
     CantTitle (title i) ∈ cant_migrate st' \/
     CantIssue (set_milestone (Some None) i) ∈ cant_migrate st')
  /\ (forall x, x ∈ cant_migrate st' ->
        exists i, i ∈ Issues p /\
                  (x = CantTitle (title i) \/
                   x = CantIssue (set_milestone (Some None) i))).
Proof.
  intros (st1 & Hloop & ->)%migrate_unfold.
  apply migrate_loop_account in Hloop
    as (l & c & ks & _ & Hc & _ & _ & _ & _ & Hacc & Hcant).
  simpl in *. subst c. split; [done|].
  intros x Hx. destruct (Hcant x Hx) as (i & Hi & [->|[-> _]]);
    exists i; (split; [done|]); [by left|by right].
Qed.

(** X16.  The creation requests of a run of [migrate] follow the order of
    the issues, with at most one request per issue. *)
Theorem creation_requests_in_order {World : Type}
        (http_post : World -> request -> World * response) (dry_run : bool)
        (aliases : gmap str str) (p : Project) (st st' : state World)
        (issues' : list Issue) :
  migrate http_post dry_run aliases p st = Some (st', issues') ->
  exists l,
    log st' = log st ++ l
    /\ creation_keys l `sublist_of` (key <$> Issues p)
    /\ (creation_calls l <= length (Issues p))%nat.
Proof.
  intros (st1 & Hloop & ->)%migrate_unfold.
  apply migrate_loop_account in Hloop
    as (l & c & ks & Hl & _ & _ & _ & _ & Hsub & _).
  simpl in *. exists (l ++ [BarUpdate (length (Issues p))]).
  rewrite Hl, <- app_assoc. split; [done|].
  assert (creation_keys (l ++ [BarUpdate (length (Issues p))])
          = creation_keys l) as Hk
    by (rewrite creation_keys_app; apply app_nil_r).
  split; [by rewrite Hk|].
  rewrite creation_calls_keys, Hk.
  apply sublist_length in Hsub. by rewrite length_fmap in Hsub.
Qed.

(** When every key is cached the loop changes nothing but the log, to
    which it adds the progress updates of the indices. *)
Lemma migrate_loop_cached {World : Type}
      (http_post : World -> request -> World * response) (dry_run : bool)
      (aliases : gmap str str) (issues : list Issue) (index : nat)
      (st : state World) :
  (forall i, i ∈ issues -> key i ∈ cached_data st) ->
  migrate_loop http_post dry_run aliases index issues st
  = Some (mkState World (cached_data st) (file st) (world st) (Milestones_ st)
                  (cant_migrate st)
                  (log st ++ (BarUpdate <$> seq index (length issues))),
          issues).
Proof.
  revert index st. induction issues as [|issue rest IH]; intros index st Hall.
  - simpl. rewrite app_nil_r. by destruct st.
  - cbn [migrate_loop]. unfold migrate_issue.
    rewrite bool_decide_eq_true_2 by (apply Hall; by left).
    cbn [mbind option_bind]. rewrite IH.
    2:{ intros i Hi. simpl. apply Hall. by right. }
    simpl. by rewrite <- app_assoc.
Qed.

(** X17.  When the key of every issue is cached, a run of [migrate] makes
    no request and touches neither the cached keys nor the cache file nor
    the issues: it only issues the progress updates 0, 1, ... up to the
    number of issues. *)
Theorem cached_run_is_silent {World : Type}
        (http_post : World -> request -> World * response) (dry_run : bool)
        (aliases : gmap str str) (p : Project) (st : state World) :
  (forall i, i ∈ Issues p -> key i ∈ cached_data st) ->
  exists st',
    migrate http_post dry_run aliases p st = Some (st', Issues p)
    /\ cached_data st' = cached_data st
    /\ file st' = file st
    /\ world st' = world st
    /\ cant_migrate st' = []
    /\ log st' = log st ++ (BarUpdate <$> seq 0 (S (length (Issues p)))).
Proof.
  intros Hall. unfold migrate. rewrite migrate_loop_cached by done.
  cbn [mbind option_bind]. eexists. split; [done|].
  unfold bar_update, record.
  cbn [cached_data file world cant_migrate log].
  split_and!; try done.
  by rewrite seq_S, fmap_app, <- app_assoc.
Qed.

(* ===================================================================== *)
(** * The script *)
(* ===================================================================== *)

Section MainFacts.

Variable tbl : list (str * N).
Context {World : Type}.
Variable http_post : World -> request -> World * response.
Variable list_milestones : World -> World * list str.
Variable jp : str.

(** On a document that has items, and with aliases that load, the script
    comes down to the migration of the extracted and resolved entry. *)
Lemma main_unfold (rows : option (list (list str))) (aliases : gmap str str)
      (file : cache_file) (dry_run : bool) (items : list Item.t) (w : World) :
  items <> [] ->
  set_aliases_path rows = Some aliases ->
  main tbl http_post list_milestones jp rows file dry_run items w
  = migrate http_post dry_run aliases
      (milestones (list_milestones w).2
         (foldl (fun p it => extracted_project tbl it p) empty_project
                (kept_items jp items)))
      (mkState World (set_cache_path file []) file (list_milestones w).1
               ∅ [] []).
Proof.
  intros Hne Hal. unfold main. rewrite Hal. cbn [mbind option_bind].
  unfold extract_document. destruct items as [|it rest]; [done|].
  rewrite extract_entry by done. cbn [mbind option_bind].
  unfold resolve_milestones. destruct (list_milestones w) as [w' titles].
  rewrite lookup_singleton_eq. cbn [mbind option_bind].
  by rewrite lookup_insert_eq.
Qed.

Lemma resolved_issues_have_comments (titles : list str) (its : list Item.t) :
  Forall (fun i => is_Some (comments i))
    (Issues (milestones titles
       (foldl (fun p it => extracted_project tbl it p) empty_project its))).
Proof.
  simpl. rewrite foldl_extracted_issues. simpl.
  apply Forall_fmap, Forall_true. intros it. by eexists.
Qed.


(** X19.  A dry run of the script on a document whose fix versions are all
    titles of destination milestones posts nothing, leaves [cant_migrate]
    empty and caches the key of every item that counts. *)
Theorem dry_run_main_caches_all (rows : option (list (list str)))
        (file : cache_file) (items : list Item.t) (w : World) :
  items <> [] ->
  is_Some (set_aliases_path rows) ->
  (forall it v, it ∈ kept_items jp items -> Item.fixVersion it = Some v ->
                v ∈ (list_milestones w).2) ->
  exists st' issues',
    main tbl http_post list_milestones jp rows file true items w
    = Some (st', issues')
    /\ cant_migrate st' = []
    /\ Forall (fun e => is_http e = false) (log st')
    /\ forall it, it ∈ kept_items jp items -> Item.key it ∈ cached_data st'.
Proof.
  intros Hne [aliases Hal] Hknown.
  rewrite (main_unfold _ aliases) by done.
  set (titles := (list_milestones w).2) in *.
  set (p := foldl (fun p it => extracted_project tbl it p) empty_project
                  (kept_items jp items)).
  set (st := mkState World (set_cache_path file []) file
                     (list_milestones w).1 ∅ [] []).
  destruct (migrate_total http_post true aliases (milestones titles p) st)
    as [[st' issues'] Hrun]; [apply resolved_issues_have_comments|].
  exists st', issues'. split; [done|].
  apply migrate_unfold in Hrun as (st1 & Hloop & ->).
  pose proof Hloop as Hloop2.
  apply migrate_loop_summary in Hloop
    as (l & c & ks & Hl & Hc & _ & _ & _ & _ & Hall & Hdry).
  apply migrate_loop_account in Hloop2
    as (l2 & c2 & ks2 & _ & Hc2 & _ & _ & _ & _ & _ & Hcant).
  destruct (Hdry eq_refl) as [Hnone Htitle].
  simpl in Hl, Hc, Hc2, Hcant. subst c2.
  assert (c = []) as ->.
  { destruct c as [|x c]; [done|]. exfalso.
    destruct (Hcant x ltac:(rewrite Hc; by left))
      as (i & Hi & [->|[-> (name & st0 & Hname & Hsub & Hm)]]).
    - apply (Htitle (title i)). by left.
    - unfold p in Hi. rewrite foldl_extracted_issues in Hi. simpl in Hi.
      apply list_elem_of_fmap in Hi as (it & -> & Hit). simpl in Hname.
      destruct (fix_version_counted tbl _ it name Hit Hname) as (n & Hn & _).
      assert (Milestones (milestones titles p) !! name = Some (Some n)) as Hres.
      { rewrite milestones_lookup. fold p in Hn. rewrite Hn. simpl.
        rewrite bool_decide_eq_true_2; [done|]. by apply (Hknown it). }
      pose proof (lookup_weaken _ _ _ _ Hres Hsub) as Hst0. congruence. }
  simpl. split; [done|]. split.
  - rewrite Hl. simpl. apply Forall_app. split; [done|]. by repeat constructor.
  - intros it Hit.
    apply (Hall eq_refl (extracted_issue tbl it)).
    simpl. unfold p. rewrite foldl_extracted_issues. simpl.
    apply list_elem_of_fmap. by exists it.
Qed.

End MainFacts.

(* ===================================================================== *)
(** * The further properties on sample runs *)
(* ===================================================================== *)

Lemma htmlentitydecode_without_ampersand_witness :
  htmlentitydecode Sample.entities (Some (py "a         b"))
  = str_replace (replicate 8 space) [] (py "a         b").
Proof.
  apply (htmlentitydecode_without_ampersand Sample.entities (py "a         b")).
  intros H. vm_compute in H. by repeat (inversion H as [|? ? ? H']; clear H; rename H' into H).
Defined.

Lemma entity_replaced_once_witness :
  re_sub_entities Sample.entities (ampersand :: py "amp" ++ semicolon :: py "lt;")
  = ampersand :: re_sub_entities Sample.entities (py "lt;").
Proof.
  apply (entity_replaced_once Sample.entities (py "amp") (py "lt;") ampersand);
    reflexivity.
Defined.

Lemma extract_keeps_last_run_witness :
  exists p,
    extract Sample.entities (py "K") Sample2.document ∅ = Some {[py "K" := p]}
    /\ Issues p
       = extracted_issue Sample.entities <$> kept_items (py "K") Sample2.document
    /\ (Forall (fun it => item_project it = Some (py "K")) Sample2.document ->
        Issues p = extracted_issue Sample.entities <$> Sample2.document).
Proof.
  apply (extract_keeps_last_run Sample.entities (py "K") Sample2.document).
  discriminate.
Defined.

Lemma extract_counts_witness :
  exists p,
    extract Sample.entities (py "K") Sample2.document ∅ = Some {[py "K" := p]}
    /\ (forall x, Labels p !! x
                  = histogram (kept_items (py "K") Sample2.document
                               ≫= counted_labels) x)
    /\ (forall x, Components p !! x
                  = histogram (kept_items (py "K") Sample2.document
                               ≫= fun it => option_list (Item.component it)) x)
    /\ (forall v, Milestones p !! v
                  = Some <$> histogram
                      (kept_items (py "K") Sample2.document
                       ≫= fun it => option_list (Item.fixVersion it)) v).
Proof.
  apply (extract_counts Sample.entities (py "K") Sample2.document).
  discriminate.
Defined.

Lemma extracted_issues_ready_witness :
  exists p,
    extract Sample.entities (py "K") Sample2.document ∅ = Some {[py "K" := p]}
    /\ forall i, i ∈ Issues p ->
         is_Some (comments i) /\ milestone i = None /\
         forall m, milestone_name i = Some m ->
                   exists n, Milestones p !! m = Some (Some n) /\ (1 <= n)%Z.
Proof.
  apply (extracted_issues_ready Sample.entities (py "K") Sample2.document).
  discriminate.
Defined.

Lemma resolved_milestone_posts_count_witness :
  let payload :=
    set_comments None
      (set_milestone_name None
         (set_milestone (Some (Some 1%Z)) Sample.planned)) in
  exists st' rs l,
    migrate_issue (Sample.server 201) false Sample.aliases 1 Sample.planned
                  Sample2.known
    = Some (st', payload)
    /\ log st' = log Sample2.known ++ Http (CreateIssue payload) rs :: l.
Proof.
  apply (resolved_milestone_posts_count (Sample.server 201) Sample.aliases
           [py "1.0"] Sample.project 1 Sample.planned (py "1.0") 1 []
           Sample2.known).
  - apply not_elem_of_nil.
  - reflexivity.
  - reflexivity.
  - vm_compute. reflexivity.
  - by left.
  - reflexivity.
Defined.

Lemma saved_key_is_reloaded_witness :
  exists st' r,
    _save_issue (Sample.server 201) false Sample.labelled [py "a comment"]
                Sample.start
    = Some (st', r)
    /\ cached_data st' = cached_data Sample.start ++ [key Sample.labelled]
    /\ set_cache_path (file st') [py "X-9"] = cached_data st'.
Proof.
  eexists _, _. split; [vm_compute; reflexivity|].
  refine (saved_key_is_reloaded (Sample.server 201) false Sample.labelled
            [py "a comment"] Sample.start _ _ [py "X-9"] _ _).
  - vm_compute. reflexivity.
  - discriminate.
Defined.

Lemma created_issue_requests_witness :
  exists st' lc,
    _save_issue (Sample.server 201) false Sample.labelled
                [py "first"; py "second"] Sample.start
    = Some (st', RetNone)
    /\ log st'
       = log Sample.start
         ++ Http (CreateIssue Sample.labelled)
              (Sample.server 201 (world Sample.start)
                 (CreateIssue Sample.labelled)).2
            :: CacheWrite (cached_data Sample.start ++ [key Sample.labelled])
            :: lc
    /\ requests lc
       = CreateComment
           (number (Sample.server 201 (world Sample.start)
                      (CreateIssue Sample.labelled)).2)
           <$> [py "first"; py "second"]
    /\ length lc = length [py "first"; py "second"].
Proof.
  apply (created_issue_requests (Sample.server 201) Sample.labelled
           [py "first"; py "second"] Sample.start).
  reflexivity.
Defined.

Lemma cache_grows_without_duplicates_witness :
  exists st' issues',
    migrate (Sample.server 201) false Sample.aliases Sample.resolved_project
            Sample.start
    = Some (st', issues')
    /\ exists ks,
      cached_data st' = cached_data Sample.start ++ ks
      /\ NoDup ks
      /\ (forall k, k ∈ ks -> k ∉ cached_data Sample.start)
      /\ (NoDup (cached_data Sample.start) -> NoDup (cached_data st')).
Proof.
  eexists _, _. split; [vm_compute; reflexivity|].
  refine (cache_grows_without_duplicates (Sample.server 201) false
            Sample.aliases Sample.resolved_project Sample.start _ _ _).
  vm_compute. reflexivity.
Defined.

Lemma every_issue_accounted_witness :
  exists st' issues',
    migrate (Sample.server 500) false Sample.aliases Sample.resolved_project
            Sample.start
    = Some (st', issues')
    /\ (forall i, i ∈ Issues Sample.resolved_project ->
          key i ∈ cached_data st' \/
          CantTitle (title i) ∈ cant_migrate st' \/
          CantIssue (set_milestone (Some None) i) ∈ cant_migrate st')
    /\ (forall x, x ∈ cant_migrate st' ->
          exists i, i ∈ Issues Sample.resolved_project /\
                    (x = CantTitle (title i) \/
                     x = CantIssue (set_milestone (Some None) i))).
Proof.
  eexists _, _. split; [vm_compute; reflexivity|].
  refine (every_issue_accounted (Sample.server 500) false
            Sample.aliases Sample.resolved_project Sample.start _ _ _).
  vm_compute. reflexivity.
Defined.

Lemma creation_requests_in_order_witness :
  exists st' issues',
    migrate (Sample.server 201) false Sample.aliases Sample.project
            Sample.start
    = Some (st', issues')
    /\ exists l,
      log st' = log Sample.start ++ l
      /\ creation_keys l `sublist_of` (key <$> Issues Sample.project)
      /\ (creation_calls l <= length (Issues Sample.project))%nat.
Proof.
  eexists _, _. split; [vm_compute; reflexivity|].
  refine (creation_requests_in_order (Sample.server 201) false
            Sample.aliases Sample.project Sample.start _ _ _).
  vm_compute. reflexivity.
Defined.

Lemma cached_run_is_silent_witness :
  exists st',
    migrate (Sample.server 201) false Sample.aliases Sample.project
            Sample2.loaded
    = Some (st', Issues Sample.project)
    /\ cached_data st' = cached_data Sample2.loaded
    /\ file st' = file Sample2.loaded
    /\ world st' = world Sample2.loaded
    /\ cant_migrate st' = []
    /\ log st'
       = log Sample2.loaded
         ++ (BarUpdate <$> seq 0 (S (length (Issues Sample.project)))).
Proof.
  apply (cached_run_is_silent (Sample.server 201) false Sample.aliases
           Sample.project Sample2.loaded).
  intros i Hi. simpl in Hi.
  apply elem_of_cons in Hi as [->|Hi]; [by left|].
  apply list_elem_of_singleton in Hi as ->. right. by left.
Defined.

Lemma dry_run_main_caches_all_witness :
  exists st' issues',
    main Sample.entities (Sample.server 201) Sample2.list_milestones (py "K")
         (Some Sample2.rows) NoFile true Sample2.document tt
    = Some (st', issues')
    /\ cant_migrate st' = []
    /\ Forall (fun e => is_http e = false) (log st')
    /\ forall it, it ∈ kept_items (py "K") Sample2.document ->
                  Item.key it ∈ cached_data st'.
Proof.
  apply (dry_run_main_caches_all Sample.entities (Sample.server 201)
           Sample2.list_milestones (py "K") (Some Sample2.rows) NoFile
           Sample2.document tt).
  - discriminate.
  - vm_compute. by eexists.
  - intros it v Hit Hv. vm_compute in Hit.
    repeat (apply elem_of_cons in Hit as [->|Hit]; [vm_compute in Hv|]).
    + discriminate.
    + injection Hv as <-. by left.
    + discriminate.
    + by apply elem_of_nil in Hit.
Defined.

Lemma collapse_leaves_no_eight_spaces_witness :
  last (py "a") <> Some space /\ leading_spaces (py "b") = 0%nat /\
  str_replace (replicate 8 space) [] (py "a" ++ replicate 19 space ++ py "b")
  = py "a" ++ replicate 3 space ++ py "b".
Proof.
  assert (last (py "a") <> Some space) as Hlast
    by (intros H; vm_compute in H; discriminate).
  split; [exact Hlast|]. split; [reflexivity|].
  exact (proj1 (collapse_leaves_no_eight_spaces
                  (py "a" ++ replicate 19 space ++ py "b"))
               (py "a") 19%nat (py "b") eq_refl Hlast eq_refl).
Defined.

